(** * pyam: hierarchical, regional and subannual aggregation

    A shallow embedding of [pyam/_aggregate.py].  An indexed [pd.Series]
    is a list of rows, each row a key (the ordered association of index
    level names to labels) and a value.  The functions of the module are
    written in a small error-and-log monad: [raise] for the Python
    exceptions, [info] for [logger.info]. *)

From Stdlib Require Import ZArith QArith String Ascii.
From stdpp Require Import base gmap strings list.

(** ** Index labels, keys and series *)

(** The labels of an index level: strings (model, scenario, region,
    variable, unit, subannual), integers (year) and the missing label. *)
Inductive label :=
  | LStr (s : string)
  | LInt (z : Z)
  | LNaN.

#[global] Instance label_eq_dec : EqDecision label.
Proof. solve_decision. Defined.

(** One entry of a [MultiIndex]: level name and label, in level order. *)
Abbreviation Key := (list (string * label)).

Abbreviation Series V := (list (Key * V)).

Definition get_level (name : string) (k : Key) : option label :=
  snd <$> List.find (λ e, bool_decide (e.1 = name)) k.

(** The label of level [name] as a string, when it is one. *)
Definition get_str (name : string) (k : Key) : option string :=
  match get_level name k with
  | Some (LStr s) => Some s
  | _ => None
  end.

(** Rewrite the label of the first level called [name]. *)
Fixpoint alter_level (f : label → label) (name : string) (k : Key) : Key :=
  match k with
  | [] => []
  | (n, l) :: k' =>
      if decide (n = name) then (n, f l) :: k' else (n, l) :: alter_level f name k'
  end.

(** [index.names]: the level names, read off the first row. *)
Definition index_names {V} (s : Series V) : list string :=
  match s with
  | [] => []
  | (k, _) :: _ => k.*1
  end.

(** The entries of [k] at the levels [cols], in the order of [cols]. *)
Definition project (cols : list string) (k : Key) : Key :=
  omap (λ c, pair c <$> get_level c k) cols.

(** [index.droplevel(names)] on one key. *)
Definition droplevel_key (names : list string) (k : Key) : Key :=
  filter (λ e, e.1 ∉ names) k.

Definition droplevel {V} (names : list string) (s : Series V) : Series V :=
  (λ r, (droplevel_key names r.1, r.2)) <$> s.

(** [s[mask]]: the rows a boolean mask selects. *)
Definition select {V} (mask : Key → bool) (s : Series V) : Series V :=
  filter (λ r, mask r.1 = true) s.

(** A well-formed series: every row has the levels [names], each once. *)
Definition wf_series {V} (names : list string) (s : Series V) : Prop :=
  NoDup names ∧ Forall (λ r, r.1.*1 = names) s.

Fixpoint lookup_row {V} (k : Key) (s : Series V) : option V :=
  match s with
  | [] => None
  | (k', v) :: s' => if decide (k = k') then Some v else lookup_row k s'
  end.

(** ** Ordering of keys, as [groupby] sorts its groups *)

Definition label_leb (a b : label) : bool :=
  match a, b with
  | LInt x, LInt y => (x <=? y)%Z
  | LInt _, _ => true
  | LStr _, LInt _ => false
  | LStr x, LStr y => String.leb x y
  | LStr _, LNaN => true
  | LNaN, LNaN => true
  | LNaN, _ => false
  end.

Fixpoint key_leb (a b : Key) : bool :=
  match a, b with
  | [], _ => true
  | _ :: _, [] => false
  | (_, x) :: a', (_, y) :: b' =>
      if decide (x = y) then key_leb a' b' else label_leb x y
  end.

Fixpoint insert_by {A} (leb : A → A → bool) (x : A) (l : list A) : list A :=
  match l with
  | [] => [x]
  | y :: l' => if leb x y then x :: l else y :: insert_by leb x l'
  end.

Definition sort_by {A} (leb : A → A → bool) (l : list A) : list A :=
  foldr (insert_by leb) [] l.

Definition sort_keys : list Key → list Key := sort_by key_leb.
Definition sort_labels : list label → list label := sort_by label_leb.

(** ** Exceptions, logging *)

Inductive exn :=
  | ValueError (msg : string)
  | AttributeError (msg : string).

#[global] Instance exn_eq_dec : EqDecision exn.
Proof. solve_decision. Defined.

Inductive result (A : Type) :=
  | Return (a : A)
  | Raise (e : exn).
Arguments Return {A} a.
Arguments Raise {A} e.

(** A computation: the messages passed to [logger.info], then how it ends. *)
Definition M (A : Type) : Type := list string * result A.

Definition ret {A} (a : A) : M A := ([], Return a).
Definition raise {A} (e : exn) : M A := ([], Raise e).
Definition info (msg : string) : M unit := ([msg], Return tt).

Definition bind {A B} (c : M A) (k : A → M B) : M B :=
  match c with
  | (l, Return a) => let '(l', r) := k a in (l ++ l', r)
  | (l, Raise e) => (l, Raise e)
  end.

Notation "'do' x <- c ; k" := (bind c (λ x, k))
  (at level 10, x binder, c at level 100, k at level 200).
Notation "c ;; k" := (bind c (λ _, k))
  (at level 100, k at level 200, right associativity).

Fixpoint foldM {A S} (f : S → A → M S) (s : S) (l : list A) : M S :=
  match l with
  | [] => ret s
  | x :: l' => do s' <- f s x; foldM f s' l'
  end.

(** The error kinds the specification speaks of.  The module raises all of
    them as [ValueError]; they are told apart by the message. *)
Inductive ErrorKind :=
  | InvalidArgumentError
  | UnknownMethodError
  | InconsistentIndexError.

Definition msg_list_components : string :=
  "Aggregating by list of variables does not support `components`!".
Definition msg_no_components (v : string) : string :=
  "Cannot aggregate variable '" +:+ v +:+ "' because it has no components!".
Definition msg_region_list_components : string :=
  "Aggregating by list of variables with components is not supported!".
Definition msg_weight_components : string :=
  "Using weights and components in one operation not supported!".
Definition msg_only_sum : string :=
  "Only method 'np.sum' allowed for weighted average!".
Definition msg_inconsistent_index : string :=
  "Inconsistent index between variable and weight!".
Definition msg_no_subregions (variable region : string) : string :=
  "Cannot aggregate variable '" +:+ variable +:+ "' to '" +:+ region +:+
  "' because it does not exist in any subregion!".
Definition msg_unknown_method (m : string) : string :=
  "'" +:+ m +:+ "' is not a known method!".

Fixpoint is_suffix (suf s : string) : bool :=
  if decide (suf = s) then true
  else match s with
       | EmptyString => false
       | String _ s' => is_suffix suf s'
       end.

Definition spec_error_kind (e : exn) : option ErrorKind :=
  match e with
  | ValueError m =>
      if decide (m = msg_list_components) then Some InvalidArgumentError
      else if decide (m = msg_region_list_components) then Some InvalidArgumentError
      else if decide (m = msg_weight_components) then Some InvalidArgumentError
      else if decide (m = msg_only_sum) then Some InvalidArgumentError
      else if decide (m = msg_inconsistent_index) then Some InconsistentIndexError
      else if is_suffix "' is not a known method!" m then Some UnknownMethodError
      else None
  | AttributeError _ => None
  end.

(** ** Values and reductions *)

(** The arithmetic of the values of a series.  The development is generic
    in it: [vsum] is the sum pandas computes over a group or a row,
    [vmean] the mean, [nan] the missing value. *)
Class Values (V : Type) := {
  nan : V;
  zero : V;
  vadd : V → V → V;
  vmul : V → V → V;
  vdiv : V → V → V;
  vsum : list V → V;
  vmean : list V → V;
}.

Section Aggregate.

Context {V : Type} `{Values V}.

(** A callable reduction: [np.sum] or any other function on values. *)
Inductive callable :=
  | np_sum
  | py_func (f : list V → V).

Definition call (c : callable) : list V → V :=
  match c with
  | np_sum => vsum
  | py_func f => f
  end.

(** The [method] argument: a name or a callable. *)
Inductive method_arg :=
  | MName (name : string)
  | MCallable (c : callable).

(** [pyam.utils.KNOWN_FUNCS], the table of named reductions. *)
Variable KNOWN_FUNCS : gmap string callable.

Definition _get_method_func (method : method_arg) : M callable :=
  match method with
  | MCallable c => ret c
  | MName name =>
      match KNOWN_FUNCS !! name with
      | Some f => ret f
      | None => raise (ValueError (msg_unknown_method name))
      end
  end.

(** [s.groupby(cols).agg(f)]: the distinct projections of the keys on
    [cols], sorted, each with [f] of the values of its rows in row order. *)
Definition group {A} (cols : list string) (k : Key) (s : Series A) : list A :=
  snd <$> filter (λ r, project cols r.1 = k) s.

Definition groupby {A} (cols : list string) (f : list A → A) (s : Series A)
  : Series A :=
  (λ k, (k, f (group cols k s))) <$>
    sort_keys (remove_dups ((λ r, project cols r.1) <$> s)).

Definition _group_and_agg (df : Series V) (by_ : list string) (method : method_arg)
  : M (Series V) :=
  let cols := filter (λ c, c ∉ by_) (index_names df) in
  do f <- _get_method_func method;
  ret (groupby cols (call f) df).

(** ** The variable hierarchy *)

Definition sep : ascii := "|"%char.

Fixpoint strip_prefix (p s : string) : option string :=
  match p, s with
  | EmptyString, _ => Some s
  | String a p', String b s' => if decide (a = b) then strip_prefix p' s' else None
  | String _ _, EmptyString => None
  end.

Fixpoint count_sep (s : string) : nat :=
  match s with
  | EmptyString => 0
  | String c s' => (if decide (c = sep) then 1 else 0) + count_sep s'
  end.

(** [x.split("|")] *)
Fixpoint split_sep (s : string) : list string :=
  match s with
  | EmptyString => [EmptyString]
  | String c s' =>
      if decide (c = sep) then EmptyString :: split_sep s'
      else match split_sep s' with
           | h :: t => String c h :: t
           | [] => [String c EmptyString]
           end
  end.

(** Modelled from the spec: [pyam.utils.find_depth] on one name, the depth
    of a variable in the hierarchy.  The function counts the separators of
    the name: the loop of [_aggregate_recursive] runs down to depth 1, the
    children of a root that has no separator.  The depth of the
    specification is this count plus one. *)
Definition find_depth (v : string) : nat := count_sep v.

(** Modelled from the spec: [pyam.utils.reduce_hierarchy(x, -1)], the
    name of the immediate parent: one hierarchy level is stripped. *)
Definition reduce_hierarchy (x : string) : string :=
  String.concat "|" (removelast (split_sep x)).

(** ** The data container *)

Record IamDataFrame := {
  _LONG_IDX : list string;
  _data : Series V;
}.

(** The [variable] argument: one name or a list of names. *)
Inductive variable_arg :=
  | VStr (v : string)
  | VList (vs : list string).

Definition isstr (x : variable_arg) : bool :=
  match x with VStr _ => true | VList _ => false end.

Definition islistable (x : variable_arg) : bool :=
  match x with VStr _ => false | VList _ => true end.

Definition to_list (x : variable_arg) : list string :=
  match x with VStr v => [v] | VList vs => vs end.

(** [df.variable]: the variables of the data, each once. *)
Definition df_variable (df : IamDataFrame) : list string :=
  remove_dups (omap (λ r, get_str "variable" r.1) (_data df)).

(** Modelled from the spec: [df._variable_components(variable, level)],
    the variables of the data matching [variable|*]; with [level = Some n]
    (0 unless overridden) those with [n] further separators, the direct
    children for 0; with [level = None] all of them. *)
Definition is_component (variable : string) (level : option nat) (c : string) : bool :=
  match strip_prefix (variable +:+ "|") c with
  | Some rest =>
      match level with
      | Some n => bool_decide (count_sep rest = n)
      | None => true
      end
  | None => false
  end.

Definition _variable_components (df : IamDataFrame) (variable : string)
    (level : option nat) : list string :=
  filter (λ c, is_component variable level c = true) (df_variable df).

(** Modelled from the spec: [df._apply_filters] on keyword filters, the
    mask of the rows whose label at each given level is among the values
    given.  The values are names, compared as they are; the container
    reads a [*] in a value as a wildcard, and the statements about names
    given by the caller are for names without one. *)
Definition _apply_filters (df : IamDataFrame) (kwargs : gmap string (list label))
  : Key → bool :=
  λ k, forallb (λ e : string * list label,
                  match get_level e.1 k with
                  | Some l => bool_decide (l ∈ e.2)
                  | None => false
                  end) (map_to_list kwargs).

(** Modelled from the spec: [df.filter] on keyword filters, the matching
    subset with its dimension structure. *)
Definition df_filter (df : IamDataFrame) (kwargs : gmap string (list label))
  : IamDataFrame :=
  {| _LONG_IDX := _LONG_IDX df;
     _data := select (_apply_filters df kwargs) (_data df) |}.

(** Modelled from the spec: [df.filter(variable=f"{variable}|*")], the
    restriction to the descendants of [variable]. *)
Definition df_filter_below (df : IamDataFrame) (variable : string) : IamDataFrame :=
  {| _LONG_IDX := _LONG_IDX df;
     _data := select (λ k, match get_str "variable" k with
                           | Some v => is_component variable None v
                           | None => false
                           end) (_data df) |}.

(** Modelled from the spec: [df._all_other_regions(region, variable)], all
    regions other than [region] that contain data for [variable]. *)
Definition _all_other_regions (df : IamDataFrame) (region : string)
    (variable : variable_arg) : list string :=
  filter (λ r, r ≠ region)
    (remove_dups
       (omap (λ r, get_str "region" r.1)
          (select (_apply_filters df {[ "variable" := LStr <$> to_list variable ]})
             (_data df)))).

(** Modelled from the spec: [df.append(other, inplace=True)], the rows of
    [other] merged into the container after its own. *)
Definition df_append (df other : IamDataFrame) : IamDataFrame :=
  {| _LONG_IDX := _LONG_IDX df; _data := _data df ++ _data other |}.

(** [pyam.index.replace_index_values]: relabel level [name] by [mapping];
    labels outside the mapping stay. *)
Definition replace_label (mapping : gmap string string) (l : label) : label :=
  match l with
  | LStr x => LStr (default x (mapping !! x))
  | _ => l
  end.

Definition replace_index_values (s : Series V) (name : string)
    (mapping : gmap string string) : Series V :=
  (λ r, (alter_level (replace_label mapping) name r.1, r.2)) <$> s.

(** ** [_aggregate] *)

(** Python's [components or default] on an optional list. *)
Definition py_or (components : option (list string)) (default : list string)
  : list string :=
  match components with
  | Some (c :: cs) => c :: cs
  | _ => default
  end.

(** [for c in components: mapping[c] = v] *)
Definition map_components (mapping : gmap string string) (components : list string)
    (v : string) : gmap string string :=
  foldl (λ m c, <[c := v]> m) mapping components.

(** The child-to-parent mapping of [_aggregate]; [None] is the early
    [return] of the single-variable branch. *)
Definition build_mapping (df : IamDataFrame) (variable : variable_arg)
    (components : option (list string)) : M (option (gmap string string)) :=
  match variable with
  | VStr v =>
      let components := py_or components (_variable_components df v (Some 0)) in
      if bool_decide (length components = 0) then
        info (msg_no_components v) ;; ret None
      else ret (Some (map_components ∅ components v))
  | VList vs =>
      do mapping <- foldM (λ mapping v,
          let _components := _variable_components df v (Some 0) in
          if bool_decide (length _components = 0) then
            info (msg_no_components v) ;; ret mapping
          else ret (map_components mapping _components v)) ∅ vs;
      ret (Some mapping)
  end.

(** The end of [_aggregate]: rename all components by [mapping] and
    aggregate. *)
Definition rename_and_aggregate (df : IamDataFrame) (mapping : gmap string string)
    (method : method_arg) : M (option (Series V)) :=
  let keys := (map_to_list mapping).*1 in
  let _df := select (_apply_filters df {[ "variable" := LStr <$> keys ]}) (_data df) in
  let _df := replace_index_values _df "variable" mapping in
  do r <- _group_and_agg _df [] method;
  ret (Some r).

Definition _aggregate (df : IamDataFrame) (variable : variable_arg)
    (components : option (list string)) (method : method_arg)
  : M (option (Series V)) :=
  if islistable variable && bool_decide (components ≠ None) then
    raise (ValueError msg_list_components)
  else
    do mapping <- build_mapping df variable components;
    match mapping with
    | None => ret None
    | Some mapping => rename_and_aggregate df mapping method
    end.

(** A container is well formed when its rows carry its dimensions. *)
Definition wf_frame (df : IamDataFrame) : Prop :=
  wf_series (_LONG_IDX df) (_data df).

(** The rows of the direct children of [variable]. *)
Definition is_child_row (variable : string) (k : Key) : bool :=
  match get_str "variable" k with
  | Some c => is_component variable (Some 0) c
  | None => false
  end.

(** The values, in row order, of the children of [variable] whose key,
    relabelled to [variable], is [k]. *)
Definition children_at (df : IamDataFrame) (variable : string) (k : Key) : list V :=
  snd <$> filter (λ r, is_child_row variable r.1 = true ∧
                       alter_level (λ _, LStr variable) "variable" r.1 = k)
            (_data df).

(** The listed variables that are skipped for want of components, those
    that are kept, and the mapping built from a list of variables. *)
Definition skipped (df : IamDataFrame) (vs : list string) : list string :=
  filter (λ v, _variable_components df v (Some 0) = []) vs.

Definition kept (df : IamDataFrame) (vs : list string) : list string :=
  filter (λ v, _variable_components df v (Some 0) ≠ []) vs.

Definition mapping_of (df : IamDataFrame) (vs : list string) : gmap string string :=
  foldl (λ m v, map_components m (_variable_components df v (Some 0)) v) ∅ vs.

(** ** [_aggregate_recursive] *)

(** Modelled from the spec: [df.aggregate(variable=vars)], the variable
    aggregator with its defaults, its result wrapped as a container. *)
Definition df_aggregate (df : IamDataFrame) (variable : variable_arg)
  : M IamDataFrame :=
  do r <- _aggregate df variable None (MCallable np_sum);
  ret {| _LONG_IDX := _LONG_IDX df; _data := default [] r |}.

(** Python's [max] of a list. *)
Definition py_max (l : list nat) : M nat :=
  match l with
  | [] => raise (ValueError "max() arg is an empty sequence")
  | x :: l' => ret (foldl Nat.max x l')
  end.

(** [pd.concat] of a list of series. *)
Definition pd_concat (l : list (Series V)) : M (Series V) :=
  match l with
  | [] => raise (ValueError "No objects to concatenate")
  | _ => ret (concat l)
  end.

(** The parent names of the variables at depth [d]; the Python set is
    listed in order of first occurrence. *)
Definition parents_at (df : IamDataFrame) (d : nat) : list string :=
  remove_dups (reduce_hierarchy <$> filter (λ v, find_depth v = d) (df_variable df)).

(** One turn of the loop, on the state [(df, data_list)]. *)
Definition recursive_step (st : IamDataFrame * list (Series V)) (d : nat)
  : M (IamDataFrame * list (Series V)) :=
  let '(df, data_list) := st in
  let vars := parents_at df d in
  do _df <- df_aggregate df (VList vars);
  ret (df_append df _df, data_list ++ [_data _df]).

Definition _aggregate_recursive (df : IamDataFrame) (variable : string)
  : M (Series V) :=
  let df := df_filter_below df variable in
  do dmax <- py_max (find_depth <$> df_variable df);
  do st <- foldM recursive_step (df, []) (reverse (seq 1 dmax));
  pd_concat st.2.



(** ** [_agg_weight] *)

(** The labels of an index, row by row. *)
Definition index_labels (s : Series V) : list (list label) := (λ r, r.1.*2) <$> s.

(** [a.index.equals(b.index)]: the same labels in the same order. *)
Definition index_equals (a b : Series V) : bool :=
  bool_decide (index_labels a = index_labels b).

Definition nan_levels (names : list string) : Key := (λ n, (n, LNaN)) <$> names.

(** [a op b] on two series, aligned as pandas aligns them: an outer join
    on the levels the two have in common.  A row of the result has the
    common levels, then the other levels of [a], then those of [b]; a row
    without a partner meets [nan]. *)
Definition align_op (op : V → V → V) (a b : Series V) : Series V :=
  let na := index_names a in
  let nb := index_names b in
  let common := filter (λ n, n ∈ nb) na in
  let la := filter (λ n, n ∉ nb) na in
  let lb := filter (λ n, n ∉ na) nb in
  concat ((λ ra : Key * V,
      match filter (λ rb : Key * V, project common rb.1 = project common ra.1) b with
      | [] => [(project common ra.1 ++ project la ra.1 ++ nan_levels lb, op ra.2 nan)]
      | ms => (λ rb : Key * V,
                 (project common ra.1 ++ project la ra.1 ++ project lb rb.1,
                  op ra.2 rb.2)) <$> ms
      end) <$> a)
  ++ ((λ rb : Key * V,
         (project common rb.1 ++ nan_levels la ++ project lb rb.1, op nan rb.2)) <$>
      filter (λ rb : Key * V,
                filter (λ ra : Key * V, project common ra.1 = project common rb.1) a = [])
        b).

(** [method in ["sum", np.sum]] *)
Definition is_sum (method : method_arg) : bool :=
  match method with
  | MName name => bool_decide (name = "sum")
  | MCallable np_sum => true
  | MCallable (py_func _) => false
  end.

(** The series handed to [_agg_weight] are rows of a container and carry
    its levels, [variable] and [unit] among them. *)
Definition _agg_weight (data weight : Series V) (method : method_arg) : M (Series V) :=
  if negb (is_sum method) then raise (ValueError msg_only_sum)
  else
    let weight := droplevel ["variable"; "unit"] weight in
    if negb (index_equals (droplevel ["variable"; "unit"] data) weight) then
      raise (ValueError msg_inconsistent_index)
    else
      let col1 := filter (λ n, n ∉ ["region"]) (index_names data) in
      let col2 := filter (λ n, n ∉ ["region"; "variable"; "unit"]) (index_names data) in
      ret (align_op vdiv (groupby col1 vsum (align_op vmul data weight))
             (groupby col2 vsum weight)).

(** The key of the weighted aggregate of the data at key [k]: the levels
    of [k] without region, those of variable and unit moved last. *)
Definition weighted_key (k : Key) : Key :=
  droplevel_key ["region"; "variable"; "unit"] k ++
  filter (λ e, e.1 ∈ ["variable"; "unit"]) (droplevel_key ["region"] k).

(** The products of value and weight over the rows of [data] that agree
    with [k] on every level but region, each row with the weights at its
    model, scenario, region and time. *)
Definition weighted_terms (data weight : Series V) (k : Key) : list V :=
  concat ((λ ra : Key * V,
             (λ rb : Key * V, vmul ra.2 rb.2) <$>
               filter (λ rb : Key * V,
                         droplevel_key ["variable"; "unit"] rb.1 =
                         droplevel_key ["variable"; "unit"] ra.1) weight) <$>
          filter (λ ra : Key * V,
                    droplevel_key ["region"] ra.1 = droplevel_key ["region"] k) data).

(** The weights that agree with [k] on every level but region, variable
    and unit. *)
Definition weights_at (weight : Series V) (k : Key) : list V :=
  snd <$> filter (λ rb : Key * V,
                    droplevel_key ["region"; "variable"; "unit"] rb.1 =
                    droplevel_key ["region"; "variable"; "unit"] k) weight.

(** ** [_aggregate_region] *)

(** The [components] argument of the region aggregator. *)
Inductive components_arg :=
  | CFalse
  | CTrue
  | CList (l : list string).

#[global] Instance components_arg_eq_dec : EqDecision components_arg.
Proof. solve_decision. Defined.

(** [repr] of a Python string.  It stands in single quotes, or in double
    quotes when it holds a single quote and no double quote; the quote in
    use and the backslash are escaped, tab, newline and carriage return
    are written [\t], [\n] and [\r], the other control characters in
    hexadecimal.  The bytes of the characters beyond ASCII stay. *)
Fixpoint has_char (c : ascii) (s : string) : bool :=
  match s with
  | EmptyString => false
  | String a s' => if decide (a = c) then true else has_char c s'
  end.

Definition hex_digit (n : N) : ascii :=
  match n with
  | 0 => "0" | 1 => "1" | 2 => "2" | 3 => "3" | 4 => "4" | 5 => "5" | 6 => "6"
  | 7 => "7" | 8 => "8" | 9 => "9" | 10 => "a" | 11 => "b" | 12 => "c" | 13 => "d"
  | 14 => "e" | _ => "f"
  end%N%char.

Definition backslash : ascii := "092"%char.
Definition single_quote : ascii := "039"%char.
Definition double_quote : ascii := "034"%char.

Definition repr_char (quote c : ascii) : string :=
  let n := N_of_ascii c in
  if decide (c = quote) then String backslash (String c EmptyString)
  else if decide (c = backslash) then String backslash (String backslash EmptyString)
  else if decide (n = 9%N) then String backslash "t"
  else if decide (n = 10%N) then String backslash "n"
  else if decide (n = 13%N) then String backslash "r"
  else if (n <? 32)%N || (n =? 127)%N then
    String backslash
      (String "x" (String (hex_digit (n / 16)) (String (hex_digit (n mod 16)) EmptyString)))
  else String c EmptyString.

Fixpoint repr_body (quote : ascii) (s : string) : string :=
  match s with
  | EmptyString => EmptyString
  | String c s' => repr_char quote c +:+ repr_body quote s'
  end.

Definition py_repr (s : string) : string :=
  let quote := if has_char single_quote s && negb (has_char double_quote s)
               then double_quote else single_quote in
  String quote (repr_body quote s +:+ String quote EmptyString).

(** A variable argument as an f-string prints it: a name as it is, a list
    with the [repr] of its names. *)
Definition format_variable (variable : variable_arg) : string :=
  match variable with
  | VStr v => v
  | VList vs => "[" +:+ String.concat ", " (py_repr <$> vs) +:+ "]"
  end.

(** [a.add(b, fill_value=0)] on two series with the same levels: every key
    of either, a missing value counted as zero. *)
Definition add_fill (a b : Series V) : Series V :=
  let keys := if decide (a.*1 = b.*1) then a.*1
              else sort_keys (remove_dups (a.*1 ++ b.*1)) in
  (λ k, (k, vadd (default zero (lookup_row k a)) (default zero (lookup_row k b)))) <$> keys.

(** The region-level part of [_aggregate_region], for [components] other
    than [False]; there [variable] is a single name. *)
Definition add_region_components (df subregion_df : IamDataFrame) (variable region : string)
    (components : components_arg) (data : Series V) : M (Series V) :=
  let region_df := df_filter df {[ "region" := [LStr region] ]} in
  let components :=
    match components with
    | CTrue =>
        let r_comps := _variable_components region_df variable None in
        let sr_comps := _variable_components subregion_df variable None in
        filter (λ c, c ∉ sr_comps) (remove_dups r_comps)
    | CList l => l
    | CFalse => []
    end in
  if bool_decide (length components = 0) then ret data
  else
    let rows := _apply_filters region_df {[ "variable" := LStr <$> components ]} in
    let _df := select rows (_data region_df) in
    let mapping : gmap string string := list_to_map ((λ c, (c, variable)) <$> components) in
    let _df := replace_index_values _df "variable" mapping in
    do g <- _group_and_agg _df ["region"] (MCallable np_sum);
    ret (add_fill data g).

Definition _aggregate_region (df : IamDataFrame) (variable : variable_arg)
    (region : string) (subregions : option (list string))
    (components : components_arg) (method : method_arg) (weight : option string)
  : M (option (Series V)) :=
  if negb (isstr variable) && bool_decide (components ≠ CFalse) then
    raise (ValueError msg_region_list_components)
  else if bool_decide (weight ≠ None) && bool_decide (components ≠ CFalse) then
    raise (ValueError msg_weight_components)
  else
    let subregions := py_or subregions (_all_other_regions df region variable) in
    if bool_decide (length subregions = 0) then
      info (msg_no_subregions (format_variable variable) region) ;; ret None
    else
      let subregion_df := df_filter df {[ "region" := LStr <$> subregions ]} in
      let rows := _apply_filters subregion_df
                    {[ "variable" := LStr <$> to_list variable ]} in
      do data <-
        match weight with
        | None => _group_and_agg (select rows (_data subregion_df)) ["region"] method
        | Some w =>
            let weight_rows := _apply_filters subregion_df {[ "variable" := [LStr w] ]} in
            _agg_weight (select rows (_data subregion_df))
              (select weight_rows (_data subregion_df)) method
        end;
      do data <-
        match components, variable with
        | CFalse, _ => ret data
        | _, VStr v => add_region_components df subregion_df v region components data
        | _, VList _ => ret data
        end;
      ret (Some data).

(** ** [_aggregate_time] *)

(** [pivot_table(index=index, columns=column)]: one row for each key over
    [index], sorted; one cell for each label of [column], sorted, holding
    the mean of the values at that key and label, [nan] where there is
    none.  The table of a selection without rows has no column: reading
    its [value] fails. *)
Definition pivot_table (index : list string) (column : string) (s : Series V)
  : list (Key * list V) :=
  let labels := sort_labels (remove_dups (omap (λ r, get_level column r.1) s)) in
  (λ k, (k, (λ c, match snd <$> filter (λ r : Key * V,
                                           project index r.1 = k ∧
                                           get_level column r.1 = Some c) s with
                  | [] => nan
                  | vs => vmean vs
                  end) <$> labels)) <$>
    sort_keys (remove_dups ((λ r, project index r.1) <$> s)).

(** The default of [components]: the labels of [df.data.subannual] other
    than [value]. *)
Definition default_time_components (df : IamDataFrame) (value : label)
  : M (list label) :=
  if bool_decide ("subannual" ∈ _LONG_IDX df) then
    ret (filter (λ l, l ≠ value)
           (remove_dups (omap (λ r, get_level "subannual" r.1) (_data df))))
  else raise (AttributeError "'DataFrame' object has no attribute 'subannual'").

(** The default the comment in the source announces: all entries in
    [column] other than [value]. *)
Definition column_components (df : IamDataFrame) (column : string) (value : label)
  : list label :=
  filter (λ l, l ≠ value)
    (remove_dups (omap (λ r, get_level column r.1) (_data df))).

Definition _aggregate_time (df : IamDataFrame) (variable : variable_arg)
    (column : string) (value : label) (components : option (list label))
    (method : method_arg) : M (Series V) :=
  do components <-
    match components with
    | None => default_time_components df value
    | Some c => ret c
    end;
  let filter_args : gmap string (list label) :=
    <[ column := components ]> {[ "variable" := LStr <$> to_list variable ]} in
  let index := filter (λ n, n ∉ [column; "value"]) (index_names (_data df)) in
  let selected := _data (df_filter df filter_args) in
  if bool_decide (selected = []) then
    raise (AttributeError "'DataFrame' object has no attribute 'value'")
  else
  let table := pivot_table index column selected in
  do f <- _get_method_func method;
  let reduced := (λ r : Key * list V, (r.1, call f r.2)) <$> table in
  let data := (λ r : Key * V, ((column, value) :: r.1, r.2)) <$> reduced in
  ret ((λ r : Key * V, (project (_LONG_IDX df) r.1, r.2)) <$> data).

End Aggregate.

(** ** Exact rational values

    An instance of the arithmetic for running the functions on small
    inputs: rationals, [None] for the missing value, reductions that skip
    missing values as pandas does. *)

Definition qlift (f : Q → Q → Q) (a b : option Q) : option Q :=
  match a, b with
  | Some x, Some y => Some (Qred (f x y))
  | _, _ => None
  end.

Definition qdiv (a b : option Q) : option Q :=
  match b with
  | Some y => if Qeq_bool y 0 then None else qlift Qdiv a b
  | None => None
  end.

Definition qsum (l : list (option Q)) : option Q :=
  Some (Qred (foldl Qplus 0%Q (omap id l))).

Definition qmean (l : list (option Q)) : option Q :=
  match omap id l with
  | [] => None
  | xs => Some (Qred (foldl Qplus 0%Q xs / inject_Z (Z.of_nat (length xs))))
  end.

Definition qbest (better : Q → Q → bool) (l : list (option Q)) : option Q :=
  match omap id l with
  | [] => None
  | x :: xs => Some (foldl (λ a b, if better b a then b else a) x xs)
  end.

#[global] Instance Q_values : Values (option Q) := {|
  nan := None;
  zero := Some 0%Q;
  vadd := qlift Qplus;
  vmul := qlift Qmult;
  vdiv := qdiv;
  vsum := qsum;
  vmean := qmean;
|}.

(** Modelled from the spec: [pyam.utils.KNOWN_FUNCS], the names of the
    standard reductions sum, mean, max and min. *)
Definition KNOWN_FUNCS_Q : gmap string (@callable (option Q)) :=
  {[ "sum" := np_sum;
     "mean" := py_func qmean;
     "max" := py_func (qbest (λ b a, negb (Qle_bool b a)));
     "min" := py_func (qbest (λ b a, negb (Qle_bool a b))) ]}.

Definition IAMC_IDX : list string :=
  ["model"; "scenario"; "region"; "variable"; "unit"; "year"].

Definition iamc_key (region variable : string) : Key :=
  [("model", LStr "model_a"); ("scenario", LStr "scen_a"); ("region", LStr region);
   ("variable", LStr variable); ("unit", LStr "EJ/yr"); ("year", LInt 2005)].

Definition iamc_row (region variable : string) (v : Z) : Key * option Q :=
  (iamc_key region variable, Some (inject_Z v)).

(** A|B = 1 and A|C = 2 at one model, scenario, region, unit and year. *)
Definition df_children : @IamDataFrame (option Q) :=
  {| _LONG_IDX := IAMC_IDX;
     _data := [iamc_row "World" "A|B" 1; iamc_row "World" "A|C" 2] |}.

(** A|B|C = 1, A|B|D = 2 and A|E = 3. *)
Definition df_tree : @IamDataFrame (option Q) :=
  {| _LONG_IDX := IAMC_IDX;
     _data := [iamc_row "World" "A|B|C" 1; iamc_row "World" "A|B|D" 2;
               iamc_row "World" "A|E" 3] |}.

(** Two subregions with a variable and its weight. *)
Definition df_regions : @IamDataFrame (option Q) :=
  {| _LONG_IDX := IAMC_IDX;
     _data := [iamc_row "reg_a" "Price" 1; iamc_row "reg_b" "Price" 2;
               iamc_row "reg_a" "Population" 10; iamc_row "reg_b" "Population" 30] |}.

Definition season_row (season subannual : string) (v : Z) : Key * option Q :=
  (iamc_key "World" "A" ++ [("subannual", LStr subannual); ("season", LStr season)],
   Some (inject_Z v)).

(** Two time slices told apart by a column [season], next to the column
    [subannual]. *)
Definition df_seasons : @IamDataFrame (option Q) :=
  {| _LONG_IDX := IAMC_IDX ++ ["subannual"; "season"];
     _data := [season_row "winter" "winter" 1; season_row "summer" "winter" 2] |}.

(** ** Statements about rows *)

Section Statements.

Context {V : Type} `{Values V}.

(** A name that the filters of the container take as it is: it holds no
    wildcard [*]. *)
Fixpoint is_literal (s : string) : bool :=
  match s with
  | EmptyString => true
  | String c s' => if decide (c = "*"%char) then false else is_literal s'
  end.

(** The rows whose variable is one of [components]. *)
Definition is_component_row (components : list string) (k : Key) : bool :=
  match get_str "variable" k with
  | Some c => bool_decide (c ∈ components)
  | None => false
  end.

(** The values, in row order, of the rows of [components] whose key,
    relabelled to [variable], is [k]. *)
Definition components_at (df : IamDataFrame) (components : list string)
    (variable : string) (k : Key) : list V :=
  snd <$> filter (λ r : Key * V,
                    is_component_row components r.1 = true ∧
                    alter_level (λ _, LStr variable) "variable" r.1 = k)
            (_data df).

(** The rows of one of [variables] in one of [regions]. *)
Definition is_region_row (regions variables : list string) (k : Key) : bool :=
  match get_str "region" k, get_str "variable" k with
  | Some r, Some v => bool_decide (r ∈ regions) && bool_decide (v ∈ variables)
  | _, _ => false
  end.

(** The values, in row order, of the rows of [variables] in [regions]
    whose key without the region level is [k]. *)
Definition region_values (df : IamDataFrame) (regions variables : list string)
    (k : Key) : list V :=
  snd <$> filter (λ r : Key * V,
                    is_region_row regions variables r.1 = true ∧
                    droplevel_key ["region"] r.1 = k)
            (_data df).

(** The values, in row order, of the rows of [components] in [region]
    whose key, relabelled to [variable] and without the region level, is
    [k]. *)
Definition region_component_values (df : IamDataFrame) (region : string)
    (components : list string) (variable : string) (k : Key) : list V :=
  snd <$> filter (λ r : Key * V,
                    is_region_row [region] components r.1 = true ∧
                    droplevel_key ["region"]
                      (alter_level (λ _, LStr variable) "variable" r.1) = k)
            (_data df).

(** The reduction of the values found, zero where there is none. *)
Definition reduce_or_zero (g : list V → V) (xs : list V) : V :=
  match xs with
  | [] => zero
  | _ => g xs
  end.

(** The components that [components=True] detects: the variables below
    [variable] found in [region] and in none of [subregions]. *)
Definition detected_components (df : @IamDataFrame V) (variable region : string)
    (subregions : list string) : list string :=
  filter (λ c, c ∉ _variable_components
                     (df_filter df {[ "region" := LStr <$> subregions ]}) variable None)
    (remove_dups (_variable_components
                    (df_filter df {[ "region" := [LStr region] ]}) variable None)).

(** The rows the time aggregator keeps: the label of [column] is one of
    [components] and, unless [column] is the variable level itself, the
    variable is one of [variables]. *)
Definition is_time_row (variables : list string) (column : string)
    (components : list label) (k : Key) : bool :=
  match get_level column k with
  | Some l => bool_decide (l ∈ components)
  | None => false
  end &&
  (bool_decide (column = "variable") ||
   match get_str "variable" k with
   | Some v => bool_decide (v ∈ variables)
   | None => false
   end).

(** The labels of [column] among the rows kept, sorted. *)
Definition time_labels (df : @IamDataFrame V) (variables : list string) (column : string)
    (components : list label) : list label :=
  sort_labels (remove_dups (omap (λ r, get_level column r.1)
    (filter (λ r : Key * V, is_time_row variables column components r.1 = true)
       (_data df)))).

(** For each of these labels, the mean of the values of the rows kept
    that carry it and agree with [k] outside [column]; the missing value
    where there is none. *)
Definition time_cells (df : @IamDataFrame V) (variables : list string) (column : string)
    (components : list label) (k : Key) : list V :=
  (λ c, match snd <$> filter (λ r : Key * V,
                 is_time_row variables column components r.1 = true ∧
                 droplevel_key [column; "value"] r.1 = droplevel_key [column; "value"] k ∧
                 get_level column r.1 = Some c) (_data df) with
        | [] => nan
        | vs => vmean vs
        end) <$> time_labels df variables column components.

(** The levels the time aggregator groups by, and the key of a group in
    the result: the label [value] at [column], the levels in the order of
    the dataset. *)
Definition time_index (df : @IamDataFrame V) (column : string) : list string :=
  filter (λ n, n ∉ [column; "value"]) (_LONG_IDX df).

Definition time_key (df : @IamDataFrame V) (column : string) (value : label) (k : Key)
  : Key :=
  project (_LONG_IDX df) ((column, value) :: k).

(** A list in which each element is at most the next. *)
Fixpoint sorted_by {A} (leb : A → A → bool) (l : list A) : bool :=
  match l with
  | x :: (y :: _) as l' => leb x y && sorted_by leb l'
  | _ => true
  end.



End Statements.

(** Two subregions with a variable, and a component that exists at the
    level of the region itself only. *)
Definition df_bunkers : @IamDataFrame (option Q) :=
  {| _LONG_IDX := IAMC_IDX;
     _data := [iamc_row "reg_a" "Emissions" 1; iamc_row "reg_b" "Emissions" 3;
               iamc_row "World" "Emissions|Bunkers" 5] |}.

(** * Properties *)

Section Lemmas.
Context {V : Type} `{Values V}.
Variable KNOWN_FUNCS : gmap string (@callable V).

Lemma bind_ret_l {A B} (a : A) (k : A → M B) : bind (ret a) k = k a.
Proof. unfold bind, ret. by destruct (k a). Qed.

Lemma elem_of_insert_by {A} (leb : A → A → bool) (k x : A) (l : list A) :
  x ∈ insert_by leb k l ↔ x = k ∨ x ∈ l.
Proof.
  induction l as [|k' l IH]; simpl.
  - rewrite list_elem_of_singleton.
    split; [by left|]. intros [?|Hn]; [done|by apply elem_of_nil in Hn].
  - destruct (leb k k'); rewrite !elem_of_cons; [done|].
    rewrite IH. tauto.
Qed.

Lemma elem_of_sort_by {A} (leb : A → A → bool) (x : A) (l : list A) :
  x ∈ sort_by leb l ↔ x ∈ l.
Proof.
  induction l as [|k l IH]; simpl; [done|].
  rewrite elem_of_insert_by, IH, elem_of_cons. done.
Qed.

Lemma elem_of_sort_keys (x : Key) (l : list Key) : x ∈ sort_keys l ↔ x ∈ l.
Proof. apply elem_of_sort_by. Qed.

Lemma lookup_row_keyed {A} (g : Key → A) (ks : list Key) (k : Key) :
  lookup_row k ((λ k, (k, g k)) <$> ks) = if decide (k ∈ ks) then Some (g k) else None.
Proof.
  induction ks as [|k' ks IH]; csimpl.
  - destruct (decide (k ∈ [])) as [Hin|]; [by apply elem_of_nil in Hin|done].
  - rewrite IH.
    destruct (decide (k = k')) as [Heq|Hne], (decide (k ∈ ks)) as [Hin|Hin],
      (decide (k ∈ k' :: ks)) as [Hin'|Hin']; subst; try done;
      exfalso; rewrite elem_of_cons in Hin'; tauto.
Qed.

Lemma group_nil_iff {A} cols (k : Key) (s : Series A) :
  group cols k s = [] ↔ k ∉ (λ r, project cols r.1) <$> s.
Proof.
  unfold group. induction s as [|r s IH]; simpl.
  - split; [intros _; apply not_elem_of_nil|done].
  - rewrite filter_cons, not_elem_of_cons.
    destruct (decide (project cols r.1 = k)); simpl.
    + split; [done|]. intros [Hn _]. by destruct Hn.
    + rewrite IH. split; [by intros ?; split|by intros [_ ?]].
Qed.

Lemma groupby_lookup {A} cols (f : list A → A) (s : Series A) (k : Key) :
  lookup_row k (groupby cols f s) =
    match group cols k s with
    | [] => None
    | vs => Some (f vs)
    end.
Proof.
  unfold groupby. rewrite (lookup_row_keyed (λ k, f (group cols k s))).
  destruct (decide _) as [Hin|Hin].
  - rewrite elem_of_sort_keys, elem_of_remove_dups in Hin.
    destruct (group cols k s) eqn:E; [|done].
    apply group_nil_iff in E. done.
  - rewrite elem_of_sort_keys, elem_of_remove_dups in Hin.
    apply group_nil_iff in Hin. by rewrite Hin.
Qed.

Lemma filter_ext_in {A} (P Q : A → Prop) `{!∀ x, Decision (P x)} `{!∀ x, Decision (Q x)}
    (l : list A) :
  (∀ x, x ∈ l → P x ↔ Q x) → filter P l = filter Q l.
Proof.
  induction l as [|x l IH]; intros Hext; [done|].
  rewrite !filter_cons.
  rewrite IH by (intros y Hy; apply Hext; by right).
  destruct (decide (P x)) as [HP|HP], (decide (Q x)) as [HQ|HQ]; try done.
  - destruct HQ. by apply (Hext x (list_elem_of_here _ _)).
  - destruct HP. by apply (Hext x (list_elem_of_here _ _)).
Qed.

Lemma filter_fmap {A B} (f : A → B) (P : B → Prop) `{!∀ x, Decision (P x)} (l : list A) :
  filter P (f <$> l) = f <$> filter (λ x, P (f x)) l.
Proof.
  induction l as [|x l IH]; [done|]. csimpl.
  rewrite !filter_cons, IH. by destruct (decide (P (f x))).
Qed.

Lemma get_level_cons n e (k : Key) :
  get_level n (e :: k) = if decide (e.1 = n) then Some e.2 else get_level n k.
Proof.
  unfold get_level. simpl. destruct (decide (e.1 = n)) as [Heq|Hne].
  - by rewrite bool_decide_eq_true_2.
  - by rewrite bool_decide_eq_false_2.
Qed.

Lemma project_cons_notin cols e (k : Key) :
  e.1 ∉ cols → project cols (e :: k) = project cols k.
Proof.
  unfold project. induction cols as [|c cols IH]; intros Hn; [done|].
  apply not_elem_of_cons in Hn as [Hne Hn]. csimpl.
  rewrite get_level_cons, decide_False by done. by rewrite IH.
Qed.

Lemma project_names (k : Key) : NoDup k.*1 → project k.*1 k = k.
Proof.
  induction k as [|[n l] k IH]; intros Hnd; [done|].
  apply NoDup_cons in Hnd as [Hn Hnd]. csimpl.
  unfold project at 1. csimpl. rewrite get_level_cons, decide_True by done. csimpl.
  f_equal. fold (project k.*1 ((n, l) :: k)).
  rewrite project_cons_notin by done. by apply IH.
Qed.

Lemma filter_notin_nil (l : list string) : filter (λ c, c ∉ []) l = l.
Proof.
  induction l as [|x l IH]; [done|].
  rewrite filter_cons, IH. destruct (decide (x ∉ [])) as [|Hn]; [done|].
  destruct Hn. apply not_elem_of_nil.
Qed.

Lemma alter_level_names f n (k : Key) : (alter_level f n k).*1 = k.*1.
Proof.
  induction k as [|[m l] k IH]; [done|]. simpl.
  destruct (decide (m = n)); csimpl; [done|]. by rewrite IH.
Qed.

Lemma alter_level_ext f g n (k : Key) :
  (∀ l, get_level n k = Some l → f l = g l) → alter_level f n k = alter_level g n k.
Proof.
  induction k as [|[m l] k IH]; intros Hext; [done|]. simpl.
  destruct (decide (m = n)) as [Heq|Hne].
  - rewrite (Hext l); [done|]. by rewrite get_level_cons, decide_True.
  - rewrite IH; [done|]. intros l' Hl'. apply Hext.
    by rewrite get_level_cons, decide_False.
Qed.

Lemma index_names_elem {A} names (s : Series A) r :
  wf_series names s → r ∈ s → index_names s = names.
Proof.
  intros [_ Hall] Hr. destruct s as [|[k v] s]; [by apply elem_of_nil in Hr|].
  by apply Forall_cons in Hall as [? _].
Qed.

Lemma groupby_all_lookup {A} names (f : list A → A) (s : Series A) (k : Key) :
  wf_series names s →
  lookup_row k (groupby (filter (λ c, c ∉ []) (index_names s)) f s) =
    match snd <$> filter (λ r, r.1 = k) s with
    | [] => None
    | vs => Some (f vs)
    end.
Proof.
  intros Hwf. rewrite groupby_lookup, filter_notin_nil. unfold group.
  rewrite (filter_ext_in (λ r, project (index_names s) r.1 = k) (λ r, r.1 = k)); [done|].
  intros r Hr. rewrite (index_names_elem names s r) by done.
  destruct Hwf as [Hnd Hall]. rewrite Forall_forall in Hall.
  rewrite <- (Hall r Hr) at 1. rewrite project_names; [done|].
  by rewrite (Hall r Hr).
Qed.

Lemma map_components_lookup (m : gmap string string) comps v c :
  map_components m comps v !! c = if decide (c ∈ comps) then Some v else m !! c.
Proof.
  unfold map_components. revert m.
  induction comps as [|x comps IH]; intros m; simpl.
  - destruct (decide (c ∈ [])) as [Hin|]; [by apply elem_of_nil in Hin|done].
  - rewrite IH.
    destruct (decide (c ∈ comps)) as [Hin|Hin], (decide (c ∈ x :: comps)) as [Hin'|Hin'];
      try done; rewrite elem_of_cons in Hin'.
    + destruct Hin'. by right.
    + destruct Hin' as [->|?]; [|done]. by rewrite lookup_insert_eq.
    + rewrite lookup_insert_ne; [done|]. intros ->. apply Hin'. by left.
Qed.

Lemma apply_filters_singleton (df : @IamDataFrame V) n vals (k : Key) :
  _apply_filters df {[ n := vals ]} k =
    match get_level n k with
    | Some l => bool_decide (l ∈ vals)
    | None => false
    end.
Proof.
  unfold _apply_filters. rewrite map_to_list_singleton. simpl.
  by rewrite andb_true_r.
Qed.

Lemma apply_filters_variable (df : @IamDataFrame V) (names : list string) (k : Key) :
  _apply_filters df {[ "variable" := LStr <$> names ]} k = true ↔
  ∃ c, get_str "variable" k = Some c ∧ c ∈ names.
Proof.
  rewrite apply_filters_singleton. unfold get_str.
  destruct (get_level "variable" k) as [l|]; [|split; [done|by intros (? & ? & ?)]].
  rewrite bool_decide_eq_true, list_elem_of_fmap. split.
  - intros (c & -> & Hc). by exists c.
  - intros (c & Hl & Hc). destruct l; try done. exists c. by simplify_eq.
Qed.

Lemma elem_of_map_keys (m : gmap string string) c :
  c ∈ (map_to_list m).*1 ↔ is_Some (m !! c).
Proof.
  rewrite list_elem_of_fmap. split.
  - intros ([c' x] & -> & Hin). apply elem_of_map_to_list in Hin. by exists x.
  - intros [x Hx]. exists (c, x). split; [done|]. by apply elem_of_map_to_list.
Qed.

Lemma elem_of_df_variable (df : @IamDataFrame V) r c :
  r ∈ _data df → get_str "variable" r.1 = Some c → c ∈ df_variable df.
Proof.
  intros Hr Hc. unfold df_variable.
  rewrite elem_of_remove_dups, list_elem_of_omap. by exists r.
Qed.

Lemma wf_relabel names (s : Series V) mask f n :
  wf_series names s →
  wf_series names ((λ r, (alter_level f n r.1, r.2)) <$> select mask s).
Proof.
  intros [Hnd Hall]. split; [done|].
  rewrite Forall_fmap. apply Forall_forall. intros r Hr. simpl.
  rewrite alter_level_names. rewrite Forall_forall in Hall. apply Hall.
  unfold select in Hr. by apply list_elem_of_filter in Hr as [_ ?].
Qed.

Lemma group_and_agg_resolved (s : Series V) by_ method f :
  _get_method_func KNOWN_FUNCS method = ret f →
  _group_and_agg KNOWN_FUNCS s by_ method =
    ret (groupby (filter (λ c, c ∉ by_) (index_names s)) (call f) s).
Proof. intros Hf. unfold _group_and_agg. by rewrite Hf, bind_ret_l. Qed.

Lemma aggregate_single_eq (df : @IamDataFrame V) variable components method :
  let comps := py_or components (_variable_components df variable (Some 0)) in
  comps ≠ [] →
  _aggregate KNOWN_FUNCS df (VStr variable) components method =
    rename_and_aggregate KNOWN_FUNCS df (map_components ∅ comps variable) method.
Proof.
  intros comps Hne. unfold _aggregate, build_mapping.
  cbn [islistable andb]. fold comps.
  rewrite bool_decide_eq_false_2 by (by destruct comps).
  by rewrite bind_ret_l.
Qed.

Lemma aggregate_children (df : @IamDataFrame V) variable method f :
  wf_frame df →
  _variable_components df variable (Some 0) ≠ [] →
  _get_method_func KNOWN_FUNCS method = ret f →
  ∃ s, _aggregate KNOWN_FUNCS df (VStr variable) None method = ([], Return (Some s)) ∧
       ∀ k, lookup_row k s =
              match children_at df variable k with
              | [] => None
              | vs => Some (call f vs)
              end.
Proof.
  intros Hwf Hne Hf.
  rewrite aggregate_single_eq by done. cbn [py_or].
  set (comps := _variable_components df variable (Some 0)) in *.
  set (mapping := map_components ∅ comps variable).
  unfold rename_and_aggregate. cbv zeta.
  rewrite (group_and_agg_resolved _ _ _ f), bind_ret_l by done.
  eexists. split; [reflexivity|]. intros k.
  unfold replace_index_values.
  rewrite (groupby_all_lookup (_LONG_IDX df)) by (by apply wf_relabel).
  rewrite filter_fmap. rewrite <- list_fmap_compose.
  unfold select. rewrite list_filter_filter. unfold children_at.
  assert (Hmap : ∀ c, mapping !! c = if decide (c ∈ comps) then Some variable else None).
  { intros c. subst mapping. by rewrite map_components_lookup, lookup_empty. }
  assert (Hsel : ∀ r, r ∈ _data df →
            (_apply_filters df {[ "variable" := LStr <$> (map_to_list mapping).*1 ]} r.1 = true
             ↔ is_child_row variable r.1 = true)).
  { intros r Hr. rewrite apply_filters_variable. unfold is_child_row. split.
    - intros (c & Hc & Hin). rewrite Hc. apply elem_of_map_keys in Hin as [x Hx].
      rewrite Hmap in Hx. destruct (decide (c ∈ comps)) as [Hin|]; [|done].
      subst comps. unfold _variable_components in Hin.
      by apply list_elem_of_filter in Hin as [? _].
    - destruct (get_str "variable" r.1) as [c|] eqn:Hc; [|done]. intros Hcomp.
      exists c. split; [done|]. apply elem_of_map_keys. rewrite Hmap.
      rewrite decide_True; [done|]. subst comps. unfold _variable_components.
      apply list_elem_of_filter. split; [done|]. by eapply elem_of_df_variable. }
  assert (Hrel : ∀ r, r ∈ _data df → is_child_row variable r.1 = true →
            alter_level (replace_label mapping) "variable" r.1 =
            alter_level (λ _, LStr variable) "variable" r.1).
  { intros r Hr Hc. apply alter_level_ext. intros l Hl.
    apply Hsel, apply_filters_variable in Hc as (c & Hc & Hin); [|done].
    unfold get_str in Hc. rewrite Hl in Hc. destruct l; simplify_eq. simpl.
    apply elem_of_map_keys in Hin as [x Hx]. rewrite Hx. simpl.
    rewrite Hmap in Hx. by destruct (decide (c ∈ comps)); simplify_eq. }
  rewrite (filter_ext_in _
    (λ r, is_child_row variable r.1 = true ∧
          alter_level (λ _, LStr variable) "variable" r.1 = k)); [done|].
  intros r Hr. simpl. rewrite (Hsel r Hr).
  split; intros [Hk Hc].
  - split; [done|]. by rewrite <- Hrel.
  - split; [|done]. by rewrite Hrel.
Qed.

Lemma msg_unknown_method_kind name :
  spec_error_kind (ValueError (msg_unknown_method name)) = Some UnknownMethodError.
Proof.
  unfold spec_error_kind, msg_unknown_method.
  repeat (rewrite decide_False by discriminate).
  assert (Hsuf : ∀ p, is_suffix "' is not a known method!"
                        (p +:+ "' is not a known method!") = true).
  { induction p as [|a p IH]; [done|].
    change (String a p +:+ ?s) with (String a (p +:+ s)).
    cbn [is_suffix]. rewrite IH. by destruct (decide _). }
  change ("'" +:+ name +:+ ?s) with (String "'" (name +:+ s)).
  cbn [is_suffix]. rewrite Hsuf. by destruct (decide _).
Qed.

Lemma is_sum_false (method : @method_arg V) :
  method ≠ MName "sum" → method ≠ MCallable np_sum → is_sum method = false.
Proof.
  intros Hn Hc. destruct method as [name|[|f]]; simpl; [|done|done].
  apply bool_decide_eq_false_2. by intros ->.
Qed.

Lemma bind_info_ret {A B} msg (a : A) (k : A → M B) :
  bind (info msg ;; ret a) k = (msg :: (k a).1, (k a).2).
Proof. unfold bind, info, ret. by destruct (k a). Qed.

(** The loop of the list branch of [build_mapping], from any mapping. *)
Lemma build_mapping_loop (df : @IamDataFrame V) vs (m : gmap string string) :
  foldM (λ mapping v,
      let _components := _variable_components df v (Some 0) in
      if bool_decide (length _components = 0) then
        info (msg_no_components v) ;; ret mapping
      else ret (map_components mapping _components v)) m vs =
  (msg_no_components <$> skipped df vs,
   Return (foldl (λ m v, map_components m (_variable_components df v (Some 0)) v) m
             (kept df vs))).
Proof.
  revert m. induction vs as [|v vs IH]; intros m; [done|].
  cbn [foldM]. unfold skipped, kept in *. rewrite !filter_cons.
  destruct (_variable_components df v (Some 0)) as [|c cs] eqn:E.
  - rewrite decide_True by done. rewrite decide_False by (intros Hn; by apply Hn).
    rewrite bool_decide_eq_true_2 by done.
    by rewrite bind_info_ret, IH.
  - rewrite decide_False by done. rewrite decide_True by done.
    rewrite bool_decide_eq_false_2 by done.
    rewrite bind_ret_l, IH. cbn [foldl]. by rewrite E.
Qed.

Lemma build_mapping_list (df : @IamDataFrame V) vs :
  build_mapping df (VList vs) None =
  (msg_no_components <$> skipped df vs, Return (Some (mapping_of df (kept df vs)))).
Proof.
  unfold build_mapping. rewrite build_mapping_loop. cbn. by rewrite app_nil_r.
Qed.

Lemma filter_idemp {A} (P : A → Prop) `{!∀ x, Decision (P x)} (l : list A) :
  filter P (filter P l) = filter P l.
Proof.
  rewrite list_filter_filter. apply filter_ext_in. tauto.
Qed.

Lemma group_and_agg_log (s : Series V) by_ method :
  (_group_and_agg KNOWN_FUNCS s by_ method).1 = [].
Proof.
  unfold _group_and_agg, _get_method_func.
  destruct method as [name|c]; [destruct (KNOWN_FUNCS !! name)|]; done.
Qed.

Lemma rename_and_aggregate_log (df : @IamDataFrame V) mapping method : (rename_and_aggregate KNOWN_FUNCS df mapping method).1 = [].
Proof.
  unfold rename_and_aggregate. cbv zeta.
  pose proof (group_and_agg_log
    (replace_index_values
       (select (_apply_filters df {[ "variable" := LStr <$> (map_to_list mapping).*1 ]})
          (_data df)) "variable" mapping) [] method) as Hlog.
  destruct (_group_and_agg _ _ _ _) as [lg [r|e]]; simpl in *; by subst.
Qed.

Lemma rename_and_aggregate_not_none (df : @IamDataFrame V) mapping method :
  (rename_and_aggregate KNOWN_FUNCS df mapping method).2 ≠ Return None.
Proof.
  unfold rename_and_aggregate. cbv zeta.
  destruct (_group_and_agg _ _ _ _) as [lg [r|e]]; done.
Qed.

Lemma aggregate_list_eq (df : @IamDataFrame V) vs method :
  _aggregate KNOWN_FUNCS df (VList vs) None method =
  (msg_no_components <$> skipped df vs,
   (rename_and_aggregate KNOWN_FUNCS df (mapping_of df (kept df vs)) method).2).
Proof.
  unfold _aggregate. cbn [islistable andb].
  rewrite bool_decide_eq_false_2 by (by intros []).
  rewrite build_mapping_list.
  pose proof (rename_and_aggregate_log df (mapping_of df (kept df vs)) method) as Hlog.
  unfold bind. destruct (rename_and_aggregate _ _ _ _) as [lg r]. simpl in *. subst.
  by rewrite app_nil_r.
Qed.

Lemma skipped_all (df : @IamDataFrame V) vs : kept df vs = [] → skipped df vs = vs.
Proof.
  unfold kept, skipped. induction vs as [|v vs IH]; [done|].
  rewrite !filter_cons.
  destruct (decide (_variable_components df v (Some 0) ≠ [])) as [Hne|He]; [done|].
  intros Hk. rewrite decide_True; [by rewrite IH|].
  destruct (_variable_components df v (Some 0)); [done|]. by destruct He.
Qed.

Lemma select_empty_mapping (df : @IamDataFrame V) :
  select (_apply_filters df {[ "variable" := LStr <$> (map_to_list (∅ : gmap string string)).*1 ]})
    (_data df) = [].
Proof.
  rewrite map_to_list_empty. unfold select.
  induction (_data df) as [|r s IH]; [done|].
  rewrite filter_cons, IH. rewrite apply_filters_singleton.
  destruct (get_level "variable" r.1); by destruct (decide _).
Qed.

Lemma rename_and_aggregate_empty (df : @IamDataFrame V) method f :
  _get_method_func KNOWN_FUNCS method = ret f →
  rename_and_aggregate KNOWN_FUNCS df ∅ method = ([], Return (Some [])).
Proof.
  intros Hf. unfold rename_and_aggregate. cbv zeta.
  rewrite select_empty_mapping.
  by rewrite (group_and_agg_resolved _ _ _ f).
Qed.

End Lemmas.

Section RecursiveLemmas.
Context {V : Type} `{Values V}.
Variable KNOWN_FUNCS : gmap string (@callable V).


Lemma bind_ext {A B} (c : M A) (f g : A → M B) :
  (∀ a, f a = g a) → bind c f = bind c g.
Proof. intros Hext. destruct c as [l [a|e]]; [|done]. unfold bind. by rewrite Hext. Qed.







End RecursiveLemmas.

Section KeyLemmas.

Lemma get_level_None c (k : Key) : get_level c k = None ↔ c ∉ k.*1.
Proof.
  induction k as [|[n l] k IH]; csimpl.
  - split; [intros _; apply not_elem_of_nil|done].
  - rewrite get_level_cons, not_elem_of_cons. simpl.
    destruct (decide (n = c)) as [->|Hne]; [split; [done|by intros [? _]]|].
    rewrite IH. split; [by intros ?; split|by intros [_ ?]].
Qed.

Lemma get_level_project c cols (k : Key) :
  get_level c (project cols k) = if decide (c ∈ cols) then get_level c k else None.
Proof.
  unfold project. induction cols as [|c' cols IH]; csimpl.
  - by destruct (decide (c ∈ [])) as [Hin|]; [apply elem_of_nil in Hin|].
  - destruct (get_level c' k) as [l|] eqn:El; csimpl.
    + rewrite get_level_cons. simpl. destruct (decide (c' = c)) as [->|Hne].
      * by rewrite decide_True by (by left).
      * rewrite IH. destruct (decide (c ∈ cols)) as [Hin|Hin].
        -- by rewrite decide_True by (by right).
        -- rewrite decide_False; [done|]. rewrite not_elem_of_cons. by split.
    + rewrite IH. destruct (decide (c ∈ cols)) as [Hin|Hin].
      * by rewrite decide_True by (by right).
      * destruct (decide (c ∈ c' :: cols)) as [Hin'|]; [|done].
        apply elem_of_cons in Hin' as [->|?]; done.
Qed.

Lemma project_project cols cols' (k : Key) :
  (∀ c, c ∈ cols → c ∈ cols') → project cols (project cols' k) = project cols k.
Proof.
  intros Hsub. unfold project at 1 3. induction cols as [|c cols IH]; [done|]. csimpl.
  rewrite get_level_project, decide_True by (apply Hsub; by left).
  rewrite IH; [done|]. intros c' Hc'. apply Hsub. by right.
Qed.

Lemma project_app cols1 cols2 (k : Key) :
  project (cols1 ++ cols2) k = project cols1 k ++ project cols2 k.
Proof. unfold project. apply omap_app. Qed.

Lemma project_names_sub cols (k : Key) :
  (∀ c, c ∈ cols → c ∈ k.*1) → (project cols k).*1 = cols.
Proof.
  unfold project. induction cols as [|c cols IH]; intros Hsub; [done|]. csimpl.
  destruct (get_level c k) as [l|] eqn:El.
  - csimpl. f_equal. apply IH. intros c' Hc'. apply Hsub. by right.
  - apply get_level_None in El. destruct El. apply Hsub. by left.
Qed.

Lemma project_filter (Q : string → Prop) `{!∀ n, Decision (Q n)} (k : Key) :
  NoDup k.*1 → project (filter Q k.*1) k = filter (λ e, Q e.1) k.
Proof.
  induction k as [|[n l] k IH]; intros Hnd; [done|].
  apply NoDup_cons in Hnd as [Hn Hnd]. csimpl.
  rewrite !filter_cons. simpl.
  assert (Hrest : project (filter Q k.*1) ((n, l) :: k) = filter (λ e, Q e.1) k).
  { rewrite project_cons_notin; [by apply IH|]. simpl.
    intros Hin. apply list_elem_of_filter in Hin as [_ Hin]. done. }
  destruct (decide (Q n)); [|done].
  unfold project at 1. csimpl. rewrite get_level_cons, decide_True by done. csimpl.
  f_equal. done.
Qed.

Lemma filter_names (Q : string → Prop) `{!∀ n, Decision (Q n)} (k : Key) :
  (filter (λ e, Q e.1) k).*1 = filter Q k.*1.
Proof.
  induction k as [|[n l] k IH]; [done|]. csimpl. rewrite !filter_cons. simpl.
  destruct (decide (Q n)); csimpl; by rewrite IH.
Qed.

Lemma droplevel_key_project names drop (k : Key) :
  NoDup names → k.*1 = names →
  droplevel_key drop k = project (filter (λ n, n ∉ drop) names) k.
Proof.
  intros Hnd <-. unfold droplevel_key. by rewrite project_filter.
Qed.

Lemma droplevel_key_names drop (k : Key) :
  (droplevel_key drop k).*1 = filter (λ n, n ∉ drop) k.*1.
Proof. exact (filter_names (λ n, n ∉ drop) k). Qed.

Lemma key_eq (k1 k2 : Key) : k1.*1 = k2.*1 → k1.*2 = k2.*2 → k1 = k2.
Proof.
  revert k2. induction k1 as [|[n1 l1] k1 IH]; intros [|[n2 l2] k2]; csimpl; try done.
  intros [= -> Hn] [= -> Hl]. f_equal. by apply IH.
Qed.

End KeyLemmas.

Section WeightLemmas.
Context {V : Type} `{Values V}.

Lemma fmap_ext_in {A B} (f g : A → B) (l : list A) :
  (∀ x, x ∈ l → f x = g x) → f <$> l = g <$> l.
Proof.
  induction l as [|x l IH]; intros Hext; [done|]. csimpl.
  rewrite (Hext x) by (by left). rewrite IH; [done|].
  intros y Hy. apply Hext. by right.
Qed.

Lemma filter_none {A} (P : A → Prop) `{!∀ x, Decision (P x)} (l : list A) :
  (∀ x, x ∈ l → ¬ P x) → filter P l = [].
Proof.
  induction l as [|x l IH]; intros Hno; [done|].
  rewrite filter_cons, decide_False by (apply Hno; by left).
  apply IH. intros y Hy. apply Hno. by right.
Qed.

Lemma filter_some {A} (P : A → Prop) `{!∀ x, Decision (P x)} (l : list A) x :
  x ∈ l → P x → filter P l ≠ [].
Proof.
  intros Hin HP Hnil.
  assert (Hx : x ∈ filter P l) by (by apply list_elem_of_filter).
  rewrite Hnil in Hx. by apply elem_of_nil in Hx.
Qed.

Lemma lookup_row_elem {A} (k : Key) (s : Series A) v :
  lookup_row k s = Some v → (k, v) ∈ s.
Proof.
  induction s as [|[k' v'] s IH]; [done|]. simpl.
  destruct (decide (k = k')) as [->|Hne].
  - intros [= ->]. by left.
  - intros Hl. right. by apply IH.
Qed.

Lemma lookup_row_None {A} (k : Key) (s : Series A) :
  lookup_row k s = None ↔ k ∉ s.*1.
Proof.
  induction s as [|[k' v'] s IH]; csimpl.
  - split; [intros _; apply not_elem_of_nil|done].
  - rewrite not_elem_of_cons. destruct (decide (k = k')) as [->|Hne].
    + split; [done|by intros [? _]].
    + rewrite IH. split; [by intros ?; split|by intros [_ ?]].
Qed.

Lemma groupby_elem {A} cols (f : list A → A) (s : Series A) (r : Key * A) :
  r ∈ groupby cols f s ↔
  (∃ p, p ∈ s ∧ project cols p.1 = r.1) ∧ r.2 = f (group cols r.1 s).
Proof.
  unfold groupby. rewrite list_elem_of_fmap. split.
  - intros (k & -> & Hk). simpl.
    rewrite elem_of_sort_keys, elem_of_remove_dups, list_elem_of_fmap in Hk.
    destruct Hk as (p & -> & Hp). split; [by exists p|done].
  - intros [(p & Hp & Hk) Hv]. exists r.1. split.
    + destruct r as [k v]. simpl in *. by subst.
    + rewrite elem_of_sort_keys, elem_of_remove_dups, list_elem_of_fmap.
      by exists p.
Qed.

Lemma wf_groupby {A} cols (f : list A → A) (s : Series A) :
  NoDup cols →
  (∀ p c, p ∈ s → c ∈ cols → c ∈ p.1.*1) →
  wf_series cols (groupby cols f s).
Proof.
  intros Hnd Hsub. split; [done|]. apply Forall_forall. intros r Hr.
  apply groupby_elem in Hr as [(p & Hp & <-) _].
  apply project_names_sub. intros c Hc. by apply (Hsub p).
Qed.

Lemma index_names_cons {A} names (r : Key * A) (s : Series A) :
  wf_series names (r :: s) → index_names (r :: s) = names.
Proof. intros Hwf. apply (index_names_elem names _ r Hwf). by left. Qed.

Lemma wf_series_elem {A} names (s : Series A) r :
  wf_series names s → r ∈ s → r.1.*1 = names ∧ NoDup r.1.*1.
Proof.
  intros [Hnd Hall] Hr. rewrite Forall_forall in Hall.
  rewrite (Hall r Hr). done.
Qed.

Lemma filter_in_filter (Q : string → Prop) `{!∀ n, Decision (Q n)} (names : list string) :
  filter (λ n, n ∈ filter Q names) names = filter Q names.
Proof.
  apply filter_ext_in. intros n Hn. rewrite list_elem_of_filter. tauto.
Qed.

Lemma filter_notin_filter (drop names : list string) :
  filter (λ n, n ∉ filter (λ n, n ∉ drop) names) names = filter (λ n, n ∈ drop) names.
Proof.
  apply filter_ext_in. intros n Hn. rewrite list_elem_of_filter.
  destruct (decide (n ∈ drop)); tauto.
Qed.

Lemma filter_notin_super (Q : string → Prop) `{!∀ n, Decision (Q n)} (names : list string) :
  filter (λ n, n ∉ names) (filter Q names) = [].
Proof.
  apply filter_none. intros n Hn Hnot. apply list_elem_of_filter in Hn as [_ Hn]. done.
Qed.

(** Aligning [a] with a series [b] on fewer levels, when every row has a
    partner: each row of [a] meets its partners in [b]. *)
Lemma align_op_sub (op : V → V → V) (a b : Series V) names drop :
  wf_series names a →
  wf_series (filter (λ n, n ∉ drop) names) b →
  (∀ ra, ra ∈ a → droplevel_key drop ra.1 ∈ b.*1) →
  (∀ rb, rb ∈ b → rb.1 ∈ (λ ra : Key * V, droplevel_key drop ra.1) <$> a) →
  align_op op a b =
    concat ((λ ra : Key * V,
               (λ rb : Key * V,
                  (project (filter (λ n, n ∉ drop) names ++ filter (λ n, n ∈ drop) names) ra.1,
                   op ra.2 rb.2)) <$>
                 filter (λ rb : Key * V, rb.1 = droplevel_key drop ra.1) b) <$> a).
Proof.
  intros Hwa Hwb Hab Hba.
  destruct a as [|ra0 a'].
  { destruct b as [|rb0 b']; [done|].
    specialize (Hba rb0 (list_elem_of_here _ _)). by apply elem_of_nil in Hba. }
  destruct b as [|rb0 b'].
  { specialize (Hab ra0 (list_elem_of_here _ _)). by apply elem_of_nil in Hab. }
  pose proof (index_names_cons _ _ _ Hwa) as Hna.
  pose proof (index_names_cons _ _ _ Hwb) as Hnb.
  remember (ra0 :: a') as a eqn:Ea. remember (rb0 :: b') as b eqn:Eb.
  unfold align_op. rewrite Hna, Hnb.
  rewrite (filter_in_filter (λ n, n ∉ drop)), filter_notin_filter,
    (filter_notin_super (λ n, n ∉ drop)).
  set (nb := filter (λ n, n ∉ drop) names).
  set (la := filter (λ n, n ∈ drop) names).
  assert (Hpa : ∀ ra, ra ∈ a → project nb ra.1 = droplevel_key drop ra.1).
  { intros ra Hra. destruct (wf_series_elem _ _ _ Hwa Hra) as [Hn Hnd].
    symmetry. apply droplevel_key_project; [by rewrite <- Hn|done]. }
  assert (Hpb : ∀ rb, rb ∈ b → project nb rb.1 = rb.1).
  { intros rb Hrb. destruct (wf_series_elem _ _ _ Hwb Hrb) as [Hn Hnd].
    unfold nb. rewrite <- Hn. by apply project_names. }
  rewrite (filter_none _ b), app_nil_r.
  - f_equal. apply fmap_ext_in. intros ra Hra.
    rewrite (filter_ext_in _ (λ rb : Key * V, rb.1 = droplevel_key drop ra.1) b).
    + destruct (filter _ b) as [|rb ms] eqn:Ems.
      * exfalso. specialize (Hab ra Hra).
        apply list_elem_of_fmap in Hab as (rb & Hk & Hrb).
        by apply (filter_some (λ rb : Key * V, rb.1 = droplevel_key drop ra.1) b rb).
      * apply fmap_ext_in. intros rb' _. f_equal.
        change (project [] rb'.1) with (@nil (string * label)).
        by rewrite app_nil_r, project_app.
    + intros rb Hrb. by rewrite (Hpa ra Hra), (Hpb rb Hrb).
  - intros rb Hrb Hnil. specialize (Hba rb Hrb).
    apply list_elem_of_fmap in Hba as (ra & Hk & Hra).
    apply (filter_some (λ ra : Key * V, project nb ra.1 = project nb rb.1) a ra);
      [done| |done].
    by rewrite (Hpa ra Hra), (Hpb rb Hrb).
Qed.

End WeightLemmas.

Section AggWeight.
Context {V : Type} `{Values V}.

Lemma keys_of_labels {A B} names (a : Series A) (b : Series B) :
  wf_series names a → wf_series names b →
  (λ r, r.1.*2) <$> a = (λ r, r.1.*2) <$> b → a.*1 = b.*1.
Proof.
  intros [_ Ha] [_ Hb]. revert b Hb.
  induction a as [|ra a IH]; intros [|rb b] Hb; csimpl; try done.
  apply Forall_cons in Ha as [Hra Ha]. apply Forall_cons in Hb as [Hrb Hb].
  intros [= Hl Hrest]. f_equal; [|by apply IH].
  apply key_eq; [by rewrite Hra, Hrb|done].
Qed.

Lemma wf_droplevel {A} names drop (s : Series A) :
  wf_series names s → wf_series (filter (λ n, n ∉ drop) names) (droplevel drop s).
Proof.
  intros [Hnd Hall]. split; [by apply NoDup_filter|].
  unfold droplevel. rewrite Forall_fmap. eapply Forall_impl; [exact Hall|].
  intros r Hr. simpl. by rewrite droplevel_key_names, Hr.
Qed.

Lemma elem_of_concat_fmap {A B} (f : A → list B) (l : list A) (y : B) :
  y ∈ concat (f <$> l) ↔ ∃ x, x ∈ l ∧ y ∈ f x.
Proof.
  induction l as [|x l IH]; csimpl.
  - split; [by intros ?%elem_of_nil|by intros (? & ?%elem_of_nil & _)].
  - rewrite elem_of_app, IH. split.
    + intros [Hy|(x' & Hx' & Hy)]; [exists x; split; [by left|done]|].
      exists x'. split; [by right|done].
    + intros (x' & Hx' & Hy). apply elem_of_cons in Hx' as [->|Hx']; [by left|].
      right. by exists x'.
Qed.

(** The values of the rows with a given key in a series built row by row
    from [l], when the key of a row depends on its source in [l] only. *)
Lemma group_concat {A B} (g : A → Key) (h : A → B → V) (m : A → list B)
    (Q : Key → Prop) `{!∀ k, Decision (Q k)} (l : list A) :
  snd <$> filter (λ r : Key * V, Q r.1)
            (concat ((λ a, (λ b, (g a, h a b)) <$> m a) <$> l)) =
  concat ((λ a, h a <$> m a) <$> filter (λ a, Q (g a)) l).
Proof.
  induction l as [|a l IH]; [done|]. csimpl.
  rewrite filter_app, fmap_app, IH, filter_cons.
  assert (Hhead : snd <$> filter (λ r : Key * V, Q r.1) ((λ b, (g a, h a b)) <$> m a) =
                  if decide (Q (g a)) then h a <$> m a else []).
  { induction (m a) as [|b bs IHb]; csimpl; [by destruct (decide _)|].
    rewrite filter_cons. simpl. destruct (decide (Q (g a))); csimpl; by rewrite IHb. }
  rewrite Hhead. by destruct (decide (Q (g a))).
Qed.

Section Names.
Variable names : list string.
Hypothesis names_nodup : NoDup names.

Let D := ["variable"; "unit"].
Let nb := filter (λ n, n ∉ D) names.
Let la := filter (λ n, n ∈ D) names.
Let col1 := filter (λ n, n ∉ ["region"]) names.
Let col2 := filter (λ n, n ∉ ["region"; "variable"; "unit"]) names.
Let la' := filter (λ n, n ∈ D) col1.

Lemma col2_col1 : filter (λ n, n ∉ D) col1 = col2.
Proof.
  unfold col1, col2. rewrite list_filter_filter. apply filter_ext_in.
  intros n _. unfold D. rewrite !not_elem_of_cons. tauto.
Qed.

Lemma in_col2 c : c ∈ col2 → c ∈ col1 ∧ c ∈ nb ∧ c ∈ names.
Proof.
  unfold col2, col1, nb, D. rewrite !list_elem_of_filter, !not_elem_of_cons. tauto.
Qed.

Lemma in_col1 c : c ∈ col1 → c ∈ names ∧ c ∈ col2 ++ la'.
Proof.
  unfold col2, la', col1, D. rewrite elem_of_app, !list_elem_of_filter, !not_elem_of_cons.
  intros [Hr Hn]. split; [done|].
  destruct (decide (c ∈ ["variable"; "unit"])) as [Hin|Hin]; [by right|left].
  rewrite !not_elem_of_cons in Hin. tauto.
Qed.

Lemma in_names c : c ∈ names → c ∈ nb ++ la.
Proof.
  intros Hc. unfold nb, la. rewrite elem_of_app, !list_elem_of_filter.
  destruct (decide (c ∈ D)); tauto.
Qed.

(** The key [weighted_key] of a row of the data, by projections. *)
Lemma weighted_key_project (k : Key) :
  k.*1 = names → weighted_key k = project (col2 ++ la') (project col1 k).
Proof.
  intros Hk. unfold weighted_key. rewrite project_app. f_equal.
  - rewrite project_project by (intros c Hc; by apply in_col2).
    by apply droplevel_key_project.
  - unfold la', col1.
    rewrite <- (droplevel_key_project names ["region"] k) by done.
    rewrite <- Hk, <- droplevel_key_names.
    rewrite (project_filter (λ n, n ∈ D)); [done|].
    rewrite droplevel_key_names, Hk. by apply NoDup_filter.
Qed.

Lemma weighted_key_col1 (k : Key) :
  k.*1 = names → project col1 (weighted_key k) = droplevel_key ["region"] k.
Proof.
  intros Hk. rewrite weighted_key_project by done.
  rewrite project_project by (intros c Hc; by apply in_col1).
  rewrite project_project by done.
  symmetry. by apply droplevel_key_project.
Qed.

Lemma weighted_key_col2 (k : Key) :
  k.*1 = names →
  project col2 (weighted_key k) = droplevel_key ["region"; "variable"; "unit"] k.
Proof.
  intros Hk. rewrite weighted_key_project by done.
  rewrite project_project by (intros c Hc; apply elem_of_app; by left).
  rewrite project_project by (intros c Hc; by apply in_col2).
  symmetry. by apply droplevel_key_project.
Qed.

Lemma droplevel_key_twice (k : Key) :
  droplevel_key D (droplevel_key ["region"] k) =
  droplevel_key ["region"; "variable"; "unit"] k.
Proof.
  unfold droplevel_key. rewrite list_filter_filter. apply filter_ext_in.
  intros e _. unfold D. rewrite !not_elem_of_cons. tauto.
Qed.

Variables data weight : Series V.
Hypothesis wf_data : wf_series names data.
Hypothesis wf_weight : wf_series names weight.
Hypothesis same_index :
  index_labels (droplevel D data) = index_labels (droplevel D weight).

Let reorder (k : Key) : Key := project (nb ++ la) k.

Let product : Series V :=
  concat ((λ ra : Key * V,
             (λ rb : Key * V, (reorder ra.1, vmul ra.2 rb.2)) <$>
               filter (λ rb : Key * V, rb.1 = droplevel_key D ra.1) (droplevel D weight)) <$>
          data).

Lemma same_keys : (droplevel D data).*1 = (droplevel D weight).*1.
Proof.
  apply (keys_of_labels nb); [by apply wf_droplevel|by apply wf_droplevel|].
  exact same_index.
Qed.

Lemma droplevel_keys {A} drop (s : Series A) :
  (droplevel drop s).*1 = (λ r : Key * A, droplevel_key drop r.1) <$> s.
Proof. unfold droplevel. by rewrite <- list_fmap_compose. Qed.

Lemma data_in_weight ra :
  ra ∈ data → droplevel_key D ra.1 ∈ (droplevel D weight).*1.
Proof.
  intros Hra. rewrite <- same_keys, droplevel_keys.
  by apply (list_elem_of_fmap_2 (λ r : Key * V, droplevel_key D r.1)).
Qed.

Lemma weight_in_data rb :
  rb ∈ droplevel D weight →
  rb.1 ∈ (λ ra : Key * V, droplevel_key D ra.1) <$> data.
Proof.
  intros Hrb. rewrite <- droplevel_keys, same_keys. by apply list_elem_of_fmap_2.
Qed.

Lemma product_eq : align_op vmul data (droplevel D weight) = product.
Proof.
  apply (align_op_sub vmul data (droplevel D weight) names D);
    [done|by apply wf_droplevel|apply data_in_weight|apply weight_in_data].
Qed.

Lemma data_names ra : ra ∈ data → ra.1.*1 = names.
Proof. intros Hra. by destruct (wf_series_elem _ _ _ wf_data Hra). Qed.

Lemma weight_names rb : rb ∈ weight → rb.1.*1 = names.
Proof. intros Hrb. by destruct (wf_series_elem _ _ _ wf_weight Hrb). Qed.

Lemma project_reorder cols (k : Key) :
  (∀ c, c ∈ cols → c ∈ names) → project cols (reorder k) = project cols k.
Proof.
  intros Hsub. unfold reorder. apply project_project.
  intros c Hc. by apply in_names, Hsub.
Qed.

Lemma project_col1 (k : Key) : k.*1 = names → project col1 k = droplevel_key ["region"] k.
Proof. intros Hk. symmetry. by apply droplevel_key_project. Qed.

Lemma project_col2 (k : Key) :
  k.*1 = names → project col2 k = droplevel_key ["region"; "variable"; "unit"] k.
Proof. intros Hk. symmetry. by apply droplevel_key_project. Qed.

Lemma weighted_terms_group ra :
  ra ∈ data →
  group col1 (droplevel_key ["region"] ra.1) product = weighted_terms data weight ra.1.
Proof.
  intros Hra. unfold group, product, weighted_terms.
  etrans.
  { exact (group_concat (λ ra : Key * V, reorder ra.1) (λ ra rb : Key * V, vmul ra.2 rb.2)
             (λ ra : Key * V,
                filter (λ rb : Key * V, rb.1 = droplevel_key D ra.1) (droplevel D weight))
             (λ k, project col1 k = droplevel_key ["region"] ra.1) data). }
  rewrite (filter_ext_in _
             (λ ra' : Key * V,
                droplevel_key ["region"] ra'.1 = droplevel_key ["region"] ra.1) data).
  - f_equal. apply fmap_ext_in. intros ra' _.
    unfold droplevel. rewrite filter_fmap, <- list_fmap_compose. done.
  - intros ra' Hra'. simpl.
    rewrite project_reorder by (intros c Hc; by apply in_col1).
    by rewrite project_col1 by (by apply data_names).
Qed.

Lemma weights_at_group ra :
  ra ∈ data →
  group col2 (droplevel_key ["region"; "variable"; "unit"] ra.1) (droplevel D weight) =
    weights_at weight ra.1.
Proof.
  intros Hra. unfold group, weights_at, droplevel.
  rewrite filter_fmap, <- list_fmap_compose. simpl.
  rewrite (filter_ext_in _
             (λ rb : Key * V,
                droplevel_key ["region"; "variable"; "unit"] rb.1 =
                droplevel_key ["region"; "variable"; "unit"] ra.1) weight); [done|].
  intros rb Hrb. simpl.
  rewrite (droplevel_key_project names D rb.1) by (by try apply weight_names).
  rewrite project_project by (intros c Hc; by apply in_col2).
  by rewrite project_col2 by (by apply weight_names).
Qed.

Lemma elem_of_product p :
  p ∈ product ↔
  ∃ ra rb, ra ∈ data ∧ rb ∈ droplevel D weight ∧ rb.1 = droplevel_key D ra.1 ∧
           p = (reorder ra.1, vmul ra.2 rb.2).
Proof.
  unfold product. rewrite elem_of_concat_fmap. split.
  - intros (ra & Hra & Hp). apply list_elem_of_fmap in Hp as (rb & -> & Hrb).
    apply list_elem_of_filter in Hrb as [Hk Hrb]. by exists ra, rb.
  - intros (ra & rb & Hra & Hrb & Hk & ->). exists ra. split; [done|].
    apply list_elem_of_fmap. exists rb. split; [done|].
    by apply list_elem_of_filter.
Qed.

Lemma elem_of_numerator rn :
  rn ∈ groupby col1 vsum product ↔
  ∃ ra, ra ∈ data ∧
        rn = (droplevel_key ["region"] ra.1, vsum (weighted_terms data weight ra.1)).
Proof.
  rewrite groupby_elem. split.
  - intros [(p & Hp & Hk) Hv]. apply elem_of_product in Hp as (ra & rb & Hra & _ & _ & ->).
    exists ra. split; [done|]. simpl in Hk.
    rewrite project_reorder in Hk by (intros c Hc; by apply in_col1).
    rewrite project_col1 in Hk by (by apply data_names).
    destruct rn as [k v]. simpl in *. subst k.
    by rewrite Hv, weighted_terms_group.
  - intros (ra & Hra & ->). simpl. split; [|by rewrite weighted_terms_group].
    pose proof (data_in_weight ra Hra) as Hin.
    apply list_elem_of_fmap in Hin as (rb & Hk & Hrb).
    exists (reorder ra.1, vmul ra.2 rb.2). split.
    + apply elem_of_product. by exists ra, rb.
    + simpl. rewrite project_reorder by (intros c Hc; by apply in_col1).
      by apply project_col1, data_names.
Qed.

Lemma elem_of_denominator rd :
  rd ∈ groupby col2 vsum (droplevel D weight) ↔
  ∃ ra, ra ∈ data ∧
        rd = (droplevel_key ["region"; "variable"; "unit"] ra.1,
              vsum (weights_at weight ra.1)).
Proof.
  assert (Hcol2 : ∀ ra rb : Key * V, ra ∈ data → rb.1 = droplevel_key D ra.1 →
            project col2 rb.1 = droplevel_key ["region"; "variable"; "unit"] ra.1).
  { intros ra rb Hra ->.
    rewrite (droplevel_key_project names D ra.1) by (by try apply data_names).
    rewrite project_project by (intros c Hc; by apply in_col2).
    by apply project_col2, data_names. }
  rewrite groupby_elem. split.
  - intros [(rb & Hrb & Hk) Hv].
    pose proof (weight_in_data rb Hrb) as Hin.
    apply list_elem_of_fmap in Hin as (ra & Hrk & Hra).
    exists ra. split; [done|]. rewrite (Hcol2 ra rb Hra Hrk) in Hk.
    destruct rd as [k v]. simpl in *. subst k.
    by rewrite Hv, weights_at_group.
  - intros (ra & Hra & ->). simpl. split; [|by rewrite weights_at_group].
    pose proof (data_in_weight ra Hra) as Hin.
    apply list_elem_of_fmap in Hin as (rb & Hk & Hrb).
    exists rb. split; [done|]. by apply Hcol2.
Qed.

Let numerator : Series V := groupby col1 vsum product.
Let denominator : Series V := groupby col2 vsum (droplevel D weight).

Lemma wf_numerator : wf_series col1 numerator.
Proof.
  apply wf_groupby; [by apply NoDup_filter|]. intros p c Hp Hc.
  apply elem_of_product in Hp as (ra & rb & Hra & _ & _ & ->). simpl.
  unfold reorder. rewrite project_names_sub.
  - by apply in_names, in_col1.
  - intros c' Hc'. rewrite (data_names ra Hra).
    apply elem_of_app in Hc' as [Hc'|Hc']; by apply list_elem_of_filter in Hc' as [_ ?].
Qed.

Lemma wf_denominator : wf_series (filter (λ n, n ∉ D) col1) denominator.
Proof.
  rewrite col2_col1. apply wf_groupby; [by apply NoDup_filter|]. intros rb c Hrb Hc.
  destruct (wf_series_elem _ _ _ (wf_droplevel names D weight wf_weight) Hrb) as [-> _].
  by apply in_col2.
Qed.

Lemma quotient_eq :
  align_op vdiv numerator denominator =
    concat ((λ rn : Key * V,
               (λ rd : Key * V, (project (col2 ++ la') rn.1, vdiv rn.2 rd.2)) <$>
                 filter (λ rd : Key * V, rd.1 = droplevel_key D rn.1) denominator) <$>
            numerator).
Proof.
  rewrite (align_op_sub vdiv numerator denominator col1 D);
    [by rewrite col2_col1|apply wf_numerator|apply wf_denominator| |].
  - intros rn Hrn. apply elem_of_numerator in Hrn as (ra & Hra & ->). simpl.
    rewrite droplevel_key_twice. apply list_elem_of_fmap.
    exists (droplevel_key ["region"; "variable"; "unit"] ra.1, vsum (weights_at weight ra.1)).
    split; [done|]. apply elem_of_denominator. by exists ra.
  - intros rd Hrd. apply elem_of_denominator in Hrd as (ra & Hra & ->). simpl.
    apply list_elem_of_fmap.
    exists (droplevel_key ["region"] ra.1, vsum (weighted_terms data weight ra.1)).
    split; [simpl; by rewrite droplevel_key_twice|]. apply elem_of_numerator. by exists ra.
Qed.

Lemma weighted_terms_ext (k k' : Key) :
  droplevel_key ["region"] k = droplevel_key ["region"] k' →
  weighted_terms data weight k = weighted_terms data weight k'.
Proof. intros Hk. unfold weighted_terms. by rewrite Hk. Qed.

Lemma weights_at_ext (k k' : Key) :
  droplevel_key ["region"; "variable"; "unit"] k =
    droplevel_key ["region"; "variable"; "unit"] k' →
  weights_at weight k = weights_at weight k'.
Proof. intros Hk. unfold weights_at. by rewrite Hk. Qed.

Lemma elem_of_quotient (kv : Key * V) :
  kv ∈ align_op vdiv numerator denominator ↔
  ∃ ra, ra ∈ data ∧
        kv = (weighted_key ra.1,
              vdiv (vsum (weighted_terms data weight ra.1))
                   (vsum (weights_at weight ra.1))).
Proof.
  rewrite quotient_eq, elem_of_concat_fmap. split.
  - intros (rn & Hrn & Hkv). apply list_elem_of_fmap in Hkv as (rd & -> & Hrd).
    apply list_elem_of_filter in Hrd as [Hk Hrd].
    apply elem_of_numerator in Hrn as (ra & Hra & ->).
    apply elem_of_denominator in Hrd as (ra' & Hra' & ->).
    simpl in *. rewrite droplevel_key_twice in Hk.
    exists ra. split; [done|]. f_equal.
    + rewrite weighted_key_project by (by try apply data_names).
      by rewrite project_col1 by (by apply data_names).
    + f_equal. f_equal. by apply weights_at_ext.
  - intros (ra & Hra & ->).
    exists (droplevel_key ["region"] ra.1, vsum (weighted_terms data weight ra.1)).
    split; [apply elem_of_numerator; by exists ra|].
    apply list_elem_of_fmap.
    exists (droplevel_key ["region"; "variable"; "unit"] ra.1, vsum (weights_at weight ra.1)).
    simpl. split.
    + f_equal. rewrite weighted_key_project by (by try apply data_names).
      by rewrite project_col1 by (by apply data_names).
    + apply list_elem_of_filter. split; [by rewrite droplevel_key_twice|].
      apply elem_of_denominator. by exists ra.
Qed.

Lemma quotient_lookup :
  (∀ ra, ra ∈ data →
     lookup_row (weighted_key ra.1) (align_op vdiv numerator denominator) =
       Some (vdiv (vsum (weighted_terms data weight ra.1))
                  (vsum (weights_at weight ra.1)))) ∧
  (∀ k, k ∉ (λ r : Key * V, weighted_key r.1) <$> data →
     lookup_row k (align_op vdiv numerator denominator) = None).
Proof.
  split.
  - intros ra Hra.
    destruct (lookup_row (weighted_key ra.1) (align_op vdiv numerator denominator))
      as [v|] eqn:El.
    + apply lookup_row_elem, elem_of_quotient in El as (ra' & Hra' & [= Hk ->]).
      f_equal. symmetry.
      rewrite (weighted_terms_ext ra.1 ra'.1), (weights_at_ext ra.1 ra'.1); [done| |].
      * rewrite <- !weighted_key_col2 by (by try apply data_names).
        by rewrite Hk.
      * rewrite <- !weighted_key_col1 by (by try apply data_names).
        by rewrite Hk.
    + apply lookup_row_None in El. destruct El. apply list_elem_of_fmap.
      eexists. split; [|apply elem_of_quotient; by exists ra]. done.
  - intros k Hk. apply lookup_row_None. intros Hin. apply Hk.
    apply list_elem_of_fmap in Hin as (kv & -> & Hkv).
    apply elem_of_quotient in Hkv as (ra & Hra & ->).
    by apply (list_elem_of_fmap_2 (λ r : Key * V, weighted_key r.1)).
Qed.

(** What [_agg_weight] returns on data that is not empty. *)
Lemma agg_weight_nonempty :
  data ≠ [] →
  align_op vdiv
    (groupby (filter (λ n, n ∉ ["region"]) (index_names data)) vsum
       (align_op vmul data (droplevel D weight)))
    (groupby (filter (λ n, n ∉ ["region"; "variable"; "unit"]) (index_names data)) vsum
       (droplevel D weight)) =
  align_op vdiv numerator denominator.
Proof.
  intros Hne.
  assert (∃ r, r ∈ data) as [r Hr].
  { clear -Hne. destruct data as [|r s]; [done|]. exists r. by left. }
  rewrite (index_names_elem names data r) by done. by rewrite product_eq.
Qed.

Lemma agg_weight_value (method : @method_arg V) :
  is_sum method = true →
  ∃ s, _agg_weight data weight method = ([], Return s) ∧
       (∀ ra, ra ∈ data →
          lookup_row (weighted_key ra.1) s =
            Some (vdiv (vsum (weighted_terms data weight ra.1))
                       (vsum (weights_at weight ra.1)))) ∧
       (∀ k, k ∉ (λ r : Key * V, weighted_key r.1) <$> data → lookup_row k s = None).
Proof.
  intros Hsum. unfold _agg_weight. rewrite Hsum. cbn [negb].
  unfold index_equals. rewrite bool_decide_eq_true_2 by exact same_index. cbn [negb].
  cbv zeta. eexists. split; [reflexivity|].
  assert (data = [] ∨ data ≠ []) as [Hd|Hd].
  { clear. destruct data; [by left|by right]. }
  - pose proof same_index as Hi. rewrite Hd in Hi. symmetry in Hi.
    apply fmap_nil_inv, fmap_nil_inv in Hi. rewrite Hd, Hi. split.
    + intros ra Hra. by apply elem_of_nil in Hra.
    + done.
  - pose proof (agg_weight_nonempty Hd) as Heq. unfold D in Heq.
    rewrite Heq. apply quotient_lookup.
Qed.

End Names.

End AggWeight.

Section AggregateMore.
Context {V : Type} `{Values V}.
Variable KNOWN_FUNCS : gmap string (@callable V).

Lemma NoDup_insert_by {A} (leb : A → A → bool) (x : A) (l : list A) :
  x ∉ l → NoDup l → NoDup (insert_by leb x l).
Proof.
  induction l as [|y l IH]; intros Hx Hnd; simpl.
  - apply NoDup_singleton.
  - destruct (leb x y); [by apply NoDup_cons|].
    apply not_elem_of_cons in Hx as [Hxy Hx]. apply NoDup_cons in Hnd as [Hy Hnd].
    apply NoDup_cons. split; [|by apply IH].
    rewrite elem_of_insert_by. intros [->|Hin]; done.
Qed.

Lemma NoDup_sort_by {A} (leb : A → A → bool) (l : list A) :
  NoDup l → NoDup (sort_by leb l).
Proof.
  induction l as [|x l IH]; intros Hnd; simpl; [apply NoDup_nil_2|].
  apply NoDup_cons in Hnd as [Hx Hnd]. apply NoDup_insert_by; [|by apply IH].
  by rewrite elem_of_sort_by.
Qed.

Lemma groupby_keys {A} cols (f : list A → A) (s : Series A) :
  (groupby cols f s).*1 = sort_keys (remove_dups ((λ r, project cols r.1) <$> s)).
Proof.
  unfold groupby. rewrite <- list_fmap_compose. apply list_fmap_id.
Qed.

Lemma NoDup_groupby {A} cols (f : list A → A) (s : Series A) :
  NoDup (groupby cols f s).*1.
Proof. rewrite groupby_keys. apply NoDup_sort_by, NoDup_remove_dups. Qed.

Lemma group_and_agg_inv (s : Series V) by_ method lg r :
  _group_and_agg KNOWN_FUNCS s by_ method = (lg, Return r) →
  ∃ f, _get_method_func KNOWN_FUNCS method = ret f ∧ lg = [] ∧
       r = groupby (filter (λ c, c ∉ by_) (index_names s)) (call f) s.
Proof.
  unfold _group_and_agg, _get_method_func.
  destruct method as [name|c].
  - destruct (KNOWN_FUNCS !! name) as [f|]; [|done].
    rewrite bind_ret_l. intros [= <- <-]. by exists f.
  - rewrite bind_ret_l. intros [= <- <-]. by exists c.
Qed.

Lemma group_and_agg_unknown (s : Series V) by_ name :
  KNOWN_FUNCS !! name = None →
  _group_and_agg KNOWN_FUNCS s by_ (MName name) =
    ([], Raise (ValueError (msg_unknown_method name))).
Proof. intros Hn. unfold _group_and_agg, _get_method_func. by rewrite Hn. Qed.

Lemma get_level_alter f n (k : Key) :
  get_level n (alter_level f n k) = f <$> get_level n k.
Proof.
  induction k as [|[m l] k IH]; [done|]. simpl.
  destruct (decide (m = n)) as [->|Hne].
  - by rewrite !get_level_cons, !decide_True.
  - by rewrite !get_level_cons, !decide_False.
Qed.

Lemma is_component_row_spec comps (k : Key) :
  is_component_row comps k = true ↔ ∃ c, get_str "variable" k = Some c ∧ c ∈ comps.
Proof.
  unfold is_component_row. destruct (get_str "variable" k) as [c|].
  - rewrite bool_decide_eq_true. split; [by exists c|by intros (? & [= <-] & ?)].
  - split; [done|by intros (? & ? & ?)].
Qed.

Lemma mask_of_mapping (df : @IamDataFrame V) (mapping : gmap string string) (k : Key) :
  _apply_filters df {[ "variable" := LStr <$> (map_to_list mapping).*1 ]} k = true ↔
  ∃ c v, get_str "variable" k = Some c ∧ mapping !! c = Some v.
Proof.
  rewrite apply_filters_variable. split.
  - intros (c & Hc & Hin). apply elem_of_map_keys in Hin as [v Hv]. by exists c, v.
  - intros (c & v & Hc & Hv). exists c. split; [done|]. apply elem_of_map_keys. by exists v.
Qed.

(** The values the relabelled selection has at a key. *)
Lemma rename_and_aggregate_lookup (df : @IamDataFrame V) mapping method f :
  wf_frame df →
  _get_method_func KNOWN_FUNCS method = ret f →
  ∃ s, rename_and_aggregate KNOWN_FUNCS df mapping method = ([], Return (Some s)) ∧
       ∀ k, lookup_row k s =
              match snd <$> filter (λ r : Key * V,
                   _apply_filters df {[ "variable" := LStr <$> (map_to_list mapping).*1 ]} r.1 = true ∧
                   alter_level (replace_label mapping) "variable" r.1 = k) (_data df) with
              | [] => None
              | vs => Some (call f vs)
              end.
Proof.
  intros Hwf Hf. unfold rename_and_aggregate. cbv zeta.
  rewrite (group_and_agg_resolved _ _ _ _ f), bind_ret_l by done.
  eexists. split; [reflexivity|]. intros k. unfold replace_index_values.
  rewrite (groupby_all_lookup (_LONG_IDX df)) by (by apply wf_relabel).
  rewrite filter_fmap, <- list_fmap_compose. unfold select.
  rewrite list_filter_filter. simpl.
  rewrite (filter_ext_in _ (λ r : Key * V,
    _apply_filters df {[ "variable" := LStr <$> (map_to_list mapping).*1 ]} r.1 = true ∧
    alter_level (replace_label mapping) "variable" r.1 = k)); [done|].
  intros r _. simpl. tauto.
Qed.

Lemma relabel_by_mapping (mapping : gmap string string) (k : Key) c v :
  get_str "variable" k = Some c → mapping !! c = Some v →
  alter_level (replace_label mapping) "variable" k =
  alter_level (λ _, LStr v) "variable" k.
Proof.
  intros Hc Hv. apply alter_level_ext. intros l Hl.
  unfold get_str in Hc. rewrite Hl in Hc. destruct l; simplify_eq. simpl.
  by rewrite Hv.
Qed.

Lemma aggregate_components (df : @IamDataFrame V) variable components method f :
  let comps := py_or components (_variable_components df variable (Some 0)) in
  wf_frame df →
  comps ≠ [] →
  _get_method_func KNOWN_FUNCS method = ret f →
  ∃ s, _aggregate KNOWN_FUNCS df (VStr variable) components method =
         ([], Return (Some s)) ∧
       ∀ k, lookup_row k s =
              match components_at df comps variable k with
              | [] => None
              | vs => Some (call f vs)
              end.
Proof.
  intros comps Hwf Hne Hf. rewrite aggregate_single_eq by done. fold comps.
  set (mapping := map_components ∅ comps variable).
  destruct (rename_and_aggregate_lookup df mapping method f Hwf Hf) as (s & -> & Hs).
  exists s. split; [done|]. intros k. rewrite Hs. unfold components_at.
  assert (Hmap : ∀ c, mapping !! c = if decide (c ∈ comps) then Some variable else None).
  { intros c. subst mapping. by rewrite map_components_lookup, lookup_empty. }
  rewrite (filter_ext_in _ (λ r : Key * V,
    is_component_row comps r.1 = true ∧
    alter_level (λ _, LStr variable) "variable" r.1 = k)); [done|].
  intros r _. simpl. rewrite mask_of_mapping, is_component_row_spec. split.
  - intros [(c & v & Hc & Hv) Hk]. pose proof Hv as Hv'. rewrite Hmap in Hv'.
    destruct (decide (c ∈ comps)); [|done].
    assert (v = variable) as -> by congruence. split; [by exists c|].
    by rewrite <- (relabel_by_mapping mapping _ c variable).
  - intros [(c & Hc & Hin) Hk].
    assert (Hv : mapping !! c = Some variable) by (by rewrite Hmap, decide_True).
    split; [by exists c, variable|].
    by rewrite (relabel_by_mapping mapping _ c variable).
Qed.

End AggregateMore.

Section AggregateInvariants.
Context {V : Type} `{Values V}.
Variable KNOWN_FUNCS : gmap string (@callable V).

Lemma map_components_values (m : gmap string string) comps v c v' :
  map_components m comps v !! c = Some v' → v' = v ∨ m !! c = Some v'.
Proof.
  rewrite map_components_lookup. destruct (decide (c ∈ comps)); [|by right].
  intros [= <-]. by left.
Qed.

Lemma mapping_fold_lookup (df : @IamDataFrame V) (l : list string)
    (m : gmap string string) c v :
  foldl (λ m v, map_components m (_variable_components df v (Some 0)) v) m l !! c = Some v →
  (v ∈ l ∧ c ∈ _variable_components df v (Some 0)) ∨ m !! c = Some v.
Proof.
  revert m. induction l as [|w l IH]; intros m; simpl; [by right|].
  intros Hl. apply IH in Hl as [[Hv Hc]|Hl].
  - left. split; [by right|done].
  - rewrite map_components_lookup in Hl.
    destruct (decide (c ∈ _variable_components df w (Some 0))) as [Hin|]; [|by right].
    injection Hl as <-. left. split; [by left|done].
Qed.

Lemma mapping_of_lookup (df : @IamDataFrame V) (l : list string) c v :
  mapping_of df l !! c = Some v → v ∈ l ∧ c ∈ _variable_components df v (Some 0).
Proof.
  intros Hl. apply mapping_fold_lookup in Hl as [?|Hl]; [done|].
  by rewrite lookup_empty in Hl.
Qed.

(** What [_aggregate] has done when it returns a series. *)
Lemma aggregate_inv (df : @IamDataFrame V) variable components method lg s :
  _aggregate KNOWN_FUNCS df variable components method = (lg, Return (Some s)) →
  ∃ (mapping : gmap string string) lg',
    (∀ c v, mapping !! c = Some v → v ∈ to_list variable) ∧
    rename_and_aggregate KNOWN_FUNCS df mapping method = (lg', Return (Some s)).
Proof.
  unfold _aggregate. destruct variable as [v|vs]; cbn [islistable andb].
  - unfold build_mapping.
    destruct (bool_decide (length (py_or components (_variable_components df v (Some 0))) = 0)).
    + rewrite bind_info_ret. by intros [= _ ?].
    + rewrite bind_ret_l. intros Hr. eexists _, lg. split; [|exact Hr].
      intros c v' Hm. apply map_components_values in Hm as [->|Hm]; [by left|].
      by rewrite lookup_empty in Hm.
  - destruct components as [cs|]; [by rewrite bool_decide_eq_true_2|].
    rewrite bool_decide_eq_false_2 by (by intros []).
    rewrite build_mapping_list. unfold bind at 1.
    destruct (rename_and_aggregate _ _ _ _) as [lg' r] eqn:Er. intros [= _ ->].
    eexists _, lg'. split; [|exact Er].
    intros c v Hm. apply mapping_of_lookup in Hm as [Hv _].
    unfold kept in Hv. by apply list_elem_of_filter in Hv as [_ ?].
Qed.

Lemma rename_and_aggregate_inv (df : @IamDataFrame V) mapping method lg s :
  rename_and_aggregate KNOWN_FUNCS df mapping method = (lg, Return (Some s)) →
  ∃ f, s = groupby
             (filter (λ c, c ∉ [])
                (index_names
                   (replace_index_values
                      (select (_apply_filters df
                                 {[ "variable" := LStr <$> (map_to_list mapping).*1 ]})
                         (_data df)) "variable" mapping)))
             (call f)
             (replace_index_values
                (select (_apply_filters df
                           {[ "variable" := LStr <$> (map_to_list mapping).*1 ]})
                   (_data df)) "variable" mapping).
Proof.
  unfold rename_and_aggregate. cbv zeta.
  destruct (_group_and_agg _ _ _ _) as [lg' [r|e]] eqn:Eg; [|done].
  apply group_and_agg_inv in Eg as (f & _ & _ & ->).
  unfold bind, ret. intros [= _ <-]. by exists f.
Qed.

Lemma relabelled_variable (df : @IamDataFrame V) (mapping : gmap string string) p :
  p ∈ replace_index_values
        (select (_apply_filters df {[ "variable" := LStr <$> (map_to_list mapping).*1 ]})
           (_data df)) "variable" mapping →
  ∃ c v, mapping !! c = Some v ∧ get_level "variable" p.1 = Some (LStr v).
Proof.
  unfold replace_index_values, select. intros Hp.
  apply list_elem_of_fmap in Hp as (q & -> & Hq).
  apply list_elem_of_filter in Hq as [Hmask _].
  apply mask_of_mapping in Hmask as (c & v & Hc & Hv).
  exists c, v. split; [done|]. simpl. rewrite get_level_alter.
  unfold get_str in Hc. destruct (get_level "variable" q.1) as [[x| |]|]; simplify_eq.
  simpl. by rewrite Hv.
Qed.

Lemma aggregate_rows (df : @IamDataFrame V) variable components method lg s :
  _aggregate KNOWN_FUNCS df variable components method = (lg, Return (Some s)) →
  NoDup s.*1 ∧
  ∀ r, r ∈ s → ∃ v, v ∈ to_list variable ∧ get_str "variable" r.1 = Some v.
Proof.
  intros Hagg. apply aggregate_inv in Hagg as (mapping & lg' & Hvals & Hagg).
  apply rename_and_aggregate_inv in Hagg as (f & ->).
  split; [apply NoDup_groupby|]. intros r Hr.
  apply groupby_elem in Hr as [(p & Hp & Hk) _].
  set (rel := replace_index_values _ _ _) in *.
  destruct (relabelled_variable df mapping p Hp) as (c & v & Hm & Hv).
  exists v. split; [by apply (Hvals c)|].
  unfold get_str. rewrite <- Hk, get_level_project, filter_notin_nil.
  rewrite decide_True; [by rewrite Hv|].
  destruct rel as [|[k0 v0] rel'] eqn:Erel; [by apply elem_of_nil in Hp|].
  assert (Hp0 : (k0, v0) ∈ rel) by (rewrite Erel; by left).
  destruct (relabelled_variable df mapping _ Hp0) as (c0 & w0 & _ & Hv0).
  simpl. simpl in Hv0.
  destruct (decide ("variable" ∈ k0.*1)) as [|Hn]; [done|].
  apply get_level_None in Hn. by rewrite Hn in Hv0.
Qed.

Lemma rename_and_aggregate_unknown (df : @IamDataFrame V) mapping name :
  KNOWN_FUNCS !! name = None →
  rename_and_aggregate KNOWN_FUNCS df mapping (MName name) =
    ([], Raise (ValueError (msg_unknown_method name))).
Proof.
  intros Hn. unfold rename_and_aggregate. cbv zeta.
  by rewrite (group_and_agg_unknown KNOWN_FUNCS _ _ name).
Qed.

Lemma no_descendants (df : @IamDataFrame V) variable :
  (∀ r c, r ∈ _data df → get_str "variable" r.1 = Some c →
          is_component variable None c = false) →
  df_variable (df_filter_below df variable) = [].
Proof.
  intros Hno. unfold df_variable, df_filter_below, select. simpl.
  rewrite filter_none; [done|]. intros r Hr.
  destruct (get_str "variable" r.1) as [c|] eqn:Ec; [|done].
  by rewrite (Hno r c Hr Ec).
Qed.

End AggregateInvariants.

Section ListAggregation.
Context {V : Type} `{Values V}.
Variable KNOWN_FUNCS : gmap string (@callable V).

Lemma append_cons x (a b : string) : String x a +:+ b = String x (a +:+ b).
Proof. reflexivity. Qed.

Lemma strip_prefix_Some p s r : strip_prefix p s = Some r → s = p +:+ r.
Proof.
  revert s. induction p as [|a p IH]; intros s; simpl; [by intros [= ->]|].
  destruct s as [|b s]; [done|]. destruct (decide (a = b)) as [->|]; [|done].
  intros Hs. by rewrite append_cons, (IH s Hs).
Qed.

Lemma count_sep_app a b : count_sep (a +:+ b) = count_sep a + count_sep b.
Proof.
  induction a as [|c a IH]; [done|].
  rewrite append_cons. simpl. rewrite IH. lia.
Qed.

Lemma append_assoc (a b c : string) : (a +:+ b) +:+ c = a +:+ (b +:+ c).
Proof. induction a as [|x a IH]; [done|]. by rewrite !append_cons, IH. Qed.

Lemma parent_unique_aux v v' r r' :
  count_sep r = 0 → count_sep r' = 0 →
  v +:+ String sep r = v' +:+ String sep r' → v = v'.
Proof.
  intros Hr Hr'. revert v'. induction v as [|a v IH]; intros [|a' v'];
    rewrite ?append_cons.
  - done.
  - change ("" +:+ String sep r) with (String sep r).
    intros [= <- ->]. rewrite count_sep_app in Hr. simpl in Hr. lia.
  - change ("" +:+ String sep r') with (String sep r').
    intros [= -> <-]. rewrite count_sep_app in Hr'. simpl in Hr'. lia.
  - intros [= -> Heq]. f_equal. by apply IH.
Qed.

(** A variable is the direct child of one parent only. *)
Lemma parent_unique v v' c :
  is_component v (Some 0) c = true → is_component v' (Some 0) c = true → v = v'.
Proof.
  unfold is_component.
  destruct (strip_prefix (v +:+ "|") c) as [r|] eqn:Er; [|done].
  destruct (strip_prefix (v' +:+ "|") c) as [r'|] eqn:Er'; [|done].
  rewrite !bool_decide_eq_true. intros Hr Hr'.
  apply strip_prefix_Some in Er, Er'. rewrite append_assoc in Er, Er'.
  apply (parent_unique_aux v v' r r'); [done..|].
  change ("|" +:+ r) with (String sep r) in Er.
  change ("|" +:+ r') with (String sep r') in Er'. congruence.
Qed.

Lemma mapping_fold_contains (df : @IamDataFrame V) (l : list string)
    (m : gmap string string) c :
  (is_Some (m !! c) ∨ ∃ v, v ∈ l ∧ c ∈ _variable_components df v (Some 0)) →
  is_Some (foldl (λ m v, map_components m (_variable_components df v (Some 0)) v) m l !! c).
Proof.
  revert m. induction l as [|w l IH]; intros m; simpl.
  - intros [?|(v & Hv & _)]; [done|by apply elem_of_nil in Hv].
  - intros Hc. apply IH. rewrite map_components_lookup.
    destruct (decide (c ∈ _variable_components df w (Some 0))) as [Hin|Hin]; [by left|].
    destruct Hc as [?|(v & Hv & Hcv)]; [by left|].
    apply elem_of_cons in Hv as [->|Hv]; [done|]. right. by exists v.
Qed.

Lemma components_are_children (df : @IamDataFrame V) v c :
  c ∈ _variable_components df v (Some 0) → is_component v (Some 0) c = true.
Proof. unfold _variable_components. by intros [? _]%list_elem_of_filter. Qed.

Lemma aggregate_list_lookup (df : @IamDataFrame V) vs v method f :
  wf_frame df →
  _get_method_func KNOWN_FUNCS method = ret f →
  v ∈ vs →
  ∃ s, _aggregate KNOWN_FUNCS df (VList vs) None method =
         (msg_no_components <$> skipped df vs, Return (Some s)) ∧
       ∀ k, get_str "variable" k = Some v →
            lookup_row k s =
              match children_at df v k with
              | [] => None
              | xs => Some (call f xs)
              end.
Proof.
  intros Hwf Hf Hv. rewrite aggregate_list_eq.
  set (mapping := mapping_of df (kept df vs)).
  destruct (rename_and_aggregate_lookup KNOWN_FUNCS df mapping method f Hwf Hf)
    as (s & -> & Hs).
  exists s. split; [done|]. intros k Hk. rewrite Hs. unfold children_at.
  rewrite (filter_ext_in _ (λ r : Key * V,
    is_child_row v r.1 = true ∧
    alter_level (λ _, LStr v) "variable" r.1 = k)); [done|].
  intros r Hr. simpl. rewrite mask_of_mapping. unfold is_child_row. split.
  - intros [(c & v' & Hc & Hm) Hrel].
    rewrite (relabel_by_mapping mapping _ c v') in Hrel by done.
    assert (v' = v) as ->.
    { unfold get_str in Hk. rewrite <- Hrel, get_level_alter in Hk.
      unfold get_str in Hc.
      destruct (get_level "variable" r.1) as [[x| |]|]; simpl in *; by simplify_eq. }
    rewrite Hc. split; [|done].
    apply mapping_of_lookup in Hm as [_ Hm]. by apply (components_are_children df).
  - intros [Hchild Hrel].
    destruct (get_str "variable" r.1) as [c|] eqn:Hc; [|done].
    assert (Hin : c ∈ _variable_components df v (Some 0)).
    { apply list_elem_of_filter. split; [done|]. by eapply elem_of_df_variable. }
    assert (Hkept : v ∈ kept df vs).
    { apply list_elem_of_filter. split; [|done]. intros Hnil.
      rewrite Hnil in Hin. by apply elem_of_nil in Hin. }
    destruct (mapping_fold_contains df (kept df vs) ∅ c) as [v' Hm];
      [right; by exists v|].
    fold (mapping_of df (kept df vs)) in Hm. fold mapping in Hm.
    assert (v' = v) as ->.
    { apply mapping_of_lookup in Hm as [_ Hm].
      by apply (parent_unique v' v c); [apply (components_are_children df)|]. }
    split; [by exists c, v|].
    by rewrite (relabel_by_mapping mapping _ c v).
Qed.

(** The whole result for a list of variables. *)
Lemma aggregate_list_values (df : @IamDataFrame V) vs method f :
  wf_frame df →
  _get_method_func KNOWN_FUNCS method = ret f →
  ∃ s, _aggregate KNOWN_FUNCS df (VList vs) None method =
         (msg_no_components <$> skipped df vs, Return (Some s)) ∧
       ∀ k, lookup_row k s =
              match get_str "variable" k with
              | Some v =>
                  if decide (v ∈ vs) then
                    match children_at df v k with
                    | [] => None
                    | xs => Some (call f xs)
                    end
                  else None
              | None => None
              end.
Proof.
  intros Hwf Hf.
  destruct (rename_and_aggregate_lookup KNOWN_FUNCS df (mapping_of df (kept df vs))
              method f Hwf Hf) as (s & Hs & Hlook).
  exists s. split; [rewrite aggregate_list_eq; by rewrite Hs|]. intros k.
  assert (Hother : (∀ v, get_str "variable" k = Some v → v ∉ vs) → lookup_row k s = None).
  { intros Hk. rewrite Hlook, filter_none; [done|].
    intros r Hr [Hmask Hrel]. apply mask_of_mapping in Hmask as (c & v' & Hc & Hm).
    rewrite (relabel_by_mapping _ _ c v') in Hrel by done.
    apply mapping_of_lookup in Hm as [Hkept _].
    apply list_elem_of_filter in Hkept as [_ Hin].
    apply (Hk v'); [|done]. unfold get_str. rewrite <- Hrel, get_level_alter.
    unfold get_str in Hc. by destruct (get_level "variable" r.1) as [[y| |]|]. }
  destruct (get_str "variable" k) as [v|] eqn:Ek; [|by apply Hother].
  destruct (decide (v ∈ vs)) as [Hv|Hv]; [|apply Hother; by intros ? [= <-]].
  destruct (aggregate_list_lookup df vs v method f Hwf Hf Hv) as (s' & Hs' & Hl).
  rewrite aggregate_list_eq, Hs in Hs'. injection Hs' as <-. by apply Hl.
Qed.

End ListAggregation.

Section RecursiveDepth.
Context {V : Type} `{Values V}.
Variable KNOWN_FUNCS : gmap string (@callable V).









End RecursiveDepth.

Section RegionLemmas.
Context {V : Type} `{Values V}.
Variable KNOWN_FUNCS : gmap string (@callable V).

Lemma apply_filters_strs (df : @IamDataFrame V) n (names : list string) (k : Key) :
  _apply_filters df {[ n := LStr <$> names ]} k = true ↔
  ∃ c, get_level n k = Some (LStr c) ∧ c ∈ names.
Proof.
  rewrite apply_filters_singleton.
  destruct (get_level n k) as [l|]; [|split; [done|by intros (? & ? & ?)]].
  rewrite bool_decide_eq_true, list_elem_of_fmap. split.
  - intros (c & -> & Hc). by exists c.
  - intros (c & [= ->] & Hc). by exists c.
Qed.

Lemma is_region_row_spec regions variables (k : Key) :
  is_region_row regions variables k = true ↔
  (∃ r, get_level "region" k = Some (LStr r) ∧ r ∈ regions) ∧
  (∃ v, get_level "variable" k = Some (LStr v) ∧ v ∈ variables).
Proof.
  unfold is_region_row, get_str.
  destruct (get_level "region" k) as [[r| |]|];
    try (split; [done|by intros [(? & ? & ?) _]]).
  destruct (get_level "variable" k) as [[v| |]|];
    try (split; [done|by intros [_ (? & ? & ?)]]).
  rewrite andb_true_iff, !bool_decide_eq_true. split.
  - intros [Hr Hv]. split; [by exists r|by exists v].
  - by intros [(r' & [= <-] & Hr) (v' & [= <-] & Hv)].
Qed.

Lemma subregion_rows (df : @IamDataFrame V) subs variable :
  let subregion_df := df_filter df {[ "region" := LStr <$> subs ]} in
  select (_apply_filters subregion_df {[ "variable" := LStr <$> to_list variable ]})
    (_data subregion_df) =
  filter (λ r : Key * V, is_region_row subs (to_list variable) r.1 = true) (_data df).
Proof.
  simpl. unfold select. rewrite list_filter_filter. apply filter_ext_in.
  intros r _. simpl. rewrite is_region_row_spec, !apply_filters_strs. tauto.
Qed.

Lemma wf_filter {A} names (P : Key * A → Prop) `{!∀ x, Decision (P x)} (s : Series A) :
  wf_series names s → wf_series names (filter P s).
Proof.
  intros [Hnd Hall]. split; [done|]. apply Forall_forall. intros r Hr.
  apply list_elem_of_filter in Hr as [_ Hr]. by apply (proj1 (Forall_forall _ _) Hall).
Qed.

Lemma groupby_drop_lookup {A} names (drop : list string) (f : list A → A) (s : Series A) (k : Key) :
  wf_series names s →
  lookup_row k (groupby (filter (λ c, c ∉ drop) (index_names s)) f s) =
    match snd <$> filter (λ r, droplevel_key drop r.1 = k) s with
    | [] => None
    | vs => Some (f vs)
    end.
Proof.
  intros Hwf. rewrite groupby_lookup. unfold group.
  destruct s as [|r0 s]; [done|].
  rewrite (index_names_cons names) by done.
  rewrite (filter_ext_in _ (λ r : Key * A, droplevel_key drop r.1 = k)); [done|].
  intros r Hr. destruct (wf_series_elem names _ r Hwf Hr) as [Hn Hnd].
  rewrite Hn in Hnd. by rewrite (droplevel_key_project names drop r.1 Hnd Hn).
Qed.

Lemma groupby_drop_names {A} names (drop : list string) (f : list A → A) (s : Series A) r :
  wf_series names s →
  r ∈ groupby (filter (λ c, c ∉ drop) (index_names s)) f s →
  r.1.*1 = filter (λ c, c ∉ drop) names.
Proof.
  intros Hwf Hr. apply groupby_elem in Hr as [(p & Hp & Hproj) _].
  rewrite (index_names_elem names s p Hwf Hp) in Hproj. rewrite <- Hproj.
  apply project_names_sub. intros c Hc.
  apply list_elem_of_filter in Hc as [_ Hc].
  destruct (wf_series_elem names _ p Hwf Hp) as [Hn _]. by rewrite Hn.
Qed.

Lemma aggregate_region_unweighted (df : @IamDataFrame V) variable region subregions
    method f :
  wf_frame df →
  _get_method_func KNOWN_FUNCS method = ret f →
  py_or subregions (_all_other_regions df region variable) ≠ [] →
  ∃ s, _aggregate_region KNOWN_FUNCS df variable region subregions CFalse method None =
         ret (Some s) ∧
       s = groupby (filter (λ c, c ∉ ["region"])
                      (index_names (filter (λ r : Key * V,
                         is_region_row (py_or subregions (_all_other_regions df region variable))
                           (to_list variable) r.1 = true) (_data df))))
             (call f)
             (filter (λ r : Key * V,
                is_region_row (py_or subregions (_all_other_regions df region variable))
                  (to_list variable) r.1 = true) (_data df)).
Proof.
  intros Hwf Hf Hsub. unfold _aggregate_region.
  rewrite (bool_decide_eq_false_2 (CFalse ≠ CFalse)) by (intros Hn; by apply Hn).
  rewrite !andb_false_r.
  rewrite bool_decide_eq_false_2
    by (intros Hl; by apply Hsub, nil_length_inv).
  rewrite subregion_rows.
  rewrite (group_and_agg_resolved KNOWN_FUNCS _ _ _ f Hf).
  rewrite !bind_ret_l. eauto.
Qed.

End RegionLemmas.

Section RegionComponents.
Context {V : Type} `{Values V}.
Variable KNOWN_FUNCS : gmap string (@callable V).

Lemma add_fill_lookup (a b : Series V) (k : Key) :
  lookup_row k (add_fill a b) =
    match lookup_row k a, lookup_row k b with
    | None, None => None
    | x, y => Some (vadd (default zero x) (default zero y))
    end.
Proof.
  unfold add_fill. rewrite lookup_row_keyed.
  set (keys := if decide (a.*1 = b.*1) then a.*1
               else sort_keys (remove_dups (a.*1 ++ b.*1))).
  assert (Hkeys : k ∈ keys ↔ k ∈ a.*1 ∨ k ∈ b.*1).
  { unfold keys. destruct (decide (a.*1 = b.*1)) as [Heq|_].
    - rewrite <- Heq. tauto.
    - by rewrite elem_of_sort_keys, elem_of_remove_dups, elem_of_app. }
  destruct (lookup_row k a) as [x|] eqn:Ea; destruct (lookup_row k b) as [y|] eqn:Eb.
  - rewrite decide_True; [done|]. apply Hkeys. left.
    apply lookup_row_elem in Ea. apply list_elem_of_fmap. by exists (k, x).
  - rewrite decide_True; [done|]. apply Hkeys. left.
    apply lookup_row_elem in Ea. apply list_elem_of_fmap. by exists (k, x).
  - rewrite decide_True; [done|]. apply Hkeys. right.
    apply lookup_row_elem in Eb. apply list_elem_of_fmap. by exists (k, y).
  - rewrite decide_False; [done|]. rewrite Hkeys.
    apply lookup_row_None in Ea, Eb. tauto.
Qed.

Lemma list_to_map_const (comps : list string) (v c : string) :
  c ∈ comps →
  (list_to_map ((λ c, (c, v)) <$> comps) : gmap string string) !! c = Some v.
Proof.
  induction comps as [|x comps IH]; [by intros ?%elem_of_nil|].
  intros Hc. csimpl. destruct (decide (x = c)) as [->|Hne].
  - by rewrite lookup_insert_eq.
  - rewrite lookup_insert_ne by done. apply IH.
    by apply elem_of_cons in Hc as [->|Hc].
Qed.

Lemma region_rows (df : @IamDataFrame V) region comps :
  let region_df := df_filter df {[ "region" := [LStr region] ]} in
  select (_apply_filters region_df {[ "variable" := LStr <$> comps ]}) (_data region_df) =
  filter (λ r : Key * V, is_region_row [region] comps r.1 = true) (_data df).
Proof. exact (subregion_rows df [region] (VList comps)). Qed.

(** The components of the region level, summed at a key. *)
Lemma region_components_lookup (df : @IamDataFrame V) region comps v (k : Key) :
  wf_frame df →
  let region_df := df_filter df {[ "region" := [LStr region] ]} in
  let _df := replace_index_values
               (select (_apply_filters region_df {[ "variable" := LStr <$> comps ]})
                  (_data region_df))
               "variable" (list_to_map ((λ c, (c, v)) <$> comps)) in
  lookup_row k (groupby (filter (λ c, c ∉ ["region"]) (index_names _df)) vsum _df) =
    match region_component_values df region comps v k with
    | [] => None
    | ys => Some (vsum ys)
    end.
Proof.
  intros Hwf. cbv zeta. unfold replace_index_values.
  rewrite (groupby_drop_lookup (_LONG_IDX df))
    by (apply wf_relabel; simpl; unfold select; by apply wf_filter).
  rewrite filter_fmap, <- list_fmap_compose. rewrite region_rows.
  rewrite list_filter_filter. unfold region_component_values.
  rewrite (filter_ext_in _ (λ r : Key * V,
    is_region_row [region] comps r.1 = true ∧
    droplevel_key ["region"] (alter_level (λ _, LStr v) "variable" r.1) = k)); [done|].
  intros r _. simpl. split.
  - intros [Hk Hrow]. split; [done|].
    pose proof Hrow as [_ (c & Hc & Hin)]%is_region_row_spec.
    rewrite <- Hk. f_equal. symmetry. apply (relabel_by_mapping _ _ c v).
    + unfold get_str. by rewrite Hc.
    + by apply list_to_map_const.
  - intros [Hrow Hk]. split; [|done].
    pose proof Hrow as [_ (c & Hc & Hin)]%is_region_row_spec.
    rewrite <- Hk. f_equal. apply (relabel_by_mapping _ _ c v).
    + unfold get_str. by rewrite Hc.
    + by apply list_to_map_const.
Qed.

Lemma aggregate_region_components (df : @IamDataFrame V) v region subregions c cs
    method f :
  wf_frame df →
  _get_method_func KNOWN_FUNCS method = ret f →
  py_or subregions (_all_other_regions df region (VStr v)) ≠ [] →
  ∃ s, _aggregate_region KNOWN_FUNCS df (VStr v) region subregions (CList (c :: cs))
         method None = ret (Some s) ∧
       ∀ k, lookup_row k s =
              match region_values df
                      (py_or subregions (_all_other_regions df region (VStr v))) [v] k,
                    region_component_values df region (c :: cs) v k with
              | [], [] => None
              | xs, ys => Some (vadd (reduce_or_zero (call f) xs) (reduce_or_zero vsum ys))
              end.
Proof.
  intros Hwf Hf Hsub. unfold _aggregate_region. cbn [isstr negb andb].
  rewrite (bool_decide_eq_false_2 (None ≠ None)) by (intros Hn; by apply Hn).
  cbn [andb].
  rewrite bool_decide_eq_false_2
    by (intros Hl; by apply Hsub, nil_length_inv).
  rewrite (subregion_rows df _ (VStr v)).
  rewrite (group_and_agg_resolved KNOWN_FUNCS _ _ _ f Hf), bind_ret_l.
  unfold add_region_components. cbn [length].
  rewrite bool_decide_eq_false_2 by done.
  rewrite (group_and_agg_resolved KNOWN_FUNCS _ _ _ np_sum) by done.
  rewrite !bind_ret_l. eexists. split; [reflexivity|]. intros k.
  rewrite add_fill_lookup.
  rewrite (groupby_drop_lookup (_LONG_IDX df)) by by apply wf_filter.
  rewrite list_filter_filter.
  rewrite (filter_ext_in _ (λ r : Key * V,
    is_region_row (py_or subregions (_all_other_regions df region (VStr v)))
      (to_list (VStr v)) r.1 = true ∧ droplevel_key ["region"] r.1 = k))
    by (intros r _; simpl; tauto).
  fold (region_values df (py_or subregions (_all_other_regions df region (VStr v)))
          (to_list (VStr v)) k).
  cbn [to_list call].
  rewrite (region_components_lookup df region (c :: cs) v k Hwf).
  by destruct (region_values _ _ _ _), (region_component_values _ _ _ _ _).
Qed.

End RegionComponents.

Section RegionDetection.
Context {V : Type} `{Values V}.
Variable KNOWN_FUNCS : gmap string (@callable V).

Lemma elem_of_region_variable (df : @IamDataFrame V) regions c :
  c ∈ df_variable (df_filter df {[ "region" := LStr <$> regions ]}) ↔
  ∃ r, r ∈ _data df ∧ is_region_row regions [c] r.1 = true.
Proof.
  unfold df_variable, df_filter, select. simpl.
  rewrite elem_of_remove_dups, list_elem_of_omap. split.
  - intros (r & Hr & Hc). apply list_elem_of_filter in Hr as [Hreg Hr].
    exists r. split; [done|]. apply is_region_row_spec.
    split; [by apply apply_filters_strs in Hreg|].
    exists c. split; [|by apply list_elem_of_singleton].
    unfold get_str in Hc. clear Hreg Hr.
    destruct (get_level "variable" r.1) as [[x| |]|]; congruence.
  - intros (r & Hr & Hrow). apply is_region_row_spec in Hrow as [Hreg (c' & Hc & Hin)].
    apply list_elem_of_singleton in Hin as ->.
    exists r. split; [|unfold get_str; by rewrite Hc].
    apply list_elem_of_filter. split; [|done]. by apply apply_filters_strs.
Qed.

Lemma elem_of_detected_components (df : @IamDataFrame V) v region subs c :
  c ∈ detected_components df v region subs ↔
  is_component v None c = true ∧
  (∃ r, r ∈ _data df ∧ is_region_row [region] [c] r.1 = true) ∧
  ¬ (∃ r, r ∈ _data df ∧ is_region_row subs [c] r.1 = true).
Proof.
  unfold detected_components, _variable_components.
  rewrite list_elem_of_filter, elem_of_remove_dups, !list_elem_of_filter.
  rewrite (elem_of_region_variable df [region] c), (elem_of_region_variable df subs c).
  tauto.
Qed.

Lemma aggregate_region_detected (df : @IamDataFrame V) v region subregions method :
  _aggregate_region KNOWN_FUNCS df (VStr v) region subregions CTrue method None =
  _aggregate_region KNOWN_FUNCS df (VStr v) region subregions
    (match detected_components df v region
             (py_or subregions (_all_other_regions df region (VStr v))) with
     | [] => CFalse
     | c :: cs => CList (c :: cs)
     end) method None.
Proof.
  unfold _aggregate_region. cbn [isstr negb andb].
  rewrite (bool_decide_eq_false_2 (None ≠ None)) by (intros Hn; by apply Hn).
  cbn [andb]. case_bool_decide; [done|].
  apply bind_ext. intros data. unfold add_region_components.
  fold (detected_components df v region
          (py_or subregions (_all_other_regions df region (VStr v)))).
  by destruct (detected_components _ _ _ _).
Qed.

Lemma aggregate_region_no_data (df : @IamDataFrame V) variable region l method f :
  l ≠ [] →
  _get_method_func KNOWN_FUNCS method = ret f →
  (∀ r, r ∈ _data df → is_region_row l (to_list variable) r.1 = false) →
  _aggregate_region KNOWN_FUNCS df variable region (Some l) CFalse method None =
    ret (Some []).
Proof.
  intros Hl Hf Hnone. unfold _aggregate_region.
  rewrite (bool_decide_eq_false_2 (CFalse ≠ CFalse)) by (intros Hn; by apply Hn).
  rewrite !andb_false_r.
  assert (py_or (Some l) (_all_other_regions df region variable) = l) as ->
    by (by destruct l).
  rewrite bool_decide_eq_false_2 by (intros Hlen; by apply Hl, nil_length_inv).
  rewrite subregion_rows.
  rewrite filter_none by (intros r Hr Hrow; by rewrite (Hnone r Hr) in Hrow).
  by rewrite (group_and_agg_resolved KNOWN_FUNCS _ _ _ f Hf).
Qed.

Lemma aggregate_region_unknown (df : @IamDataFrame V) variable region subregions name :
  py_or subregions (_all_other_regions df region variable) ≠ [] →
  KNOWN_FUNCS !! name = None →
  _aggregate_region KNOWN_FUNCS df variable region subregions CFalse (MName name) None =
    ([], Raise (ValueError (msg_unknown_method name))).
Proof.
  intros Hsub Hname. unfold _aggregate_region.
  rewrite (bool_decide_eq_false_2 (CFalse ≠ CFalse)) by (intros Hn; by apply Hn).
  rewrite !andb_false_r.
  rewrite bool_decide_eq_false_2 by (intros Hlen; by apply Hsub, nil_length_inv).
  by rewrite group_and_agg_unknown.
Qed.

Lemma aggregate_region_only_sum (df : @IamDataFrame V) variable region subregions
    method w :
  py_or subregions (_all_other_regions df region variable) ≠ [] →
  is_sum method = false →
  _aggregate_region KNOWN_FUNCS df variable region subregions CFalse method (Some w) =
    ([], Raise (ValueError msg_only_sum)).
Proof.
  intros Hsub Hsum. unfold _aggregate_region.
  rewrite (bool_decide_eq_false_2 (CFalse ≠ CFalse)) by (intros Hn; by apply Hn).
  rewrite !andb_false_r.
  rewrite bool_decide_eq_false_2 by (intros Hlen; by apply Hsub, nil_length_inv).
  unfold _agg_weight. by rewrite Hsum.
Qed.

End RegionDetection.

Section TimeLemmas.
Context {V : Type} `{Values V}.
Variable KNOWN_FUNCS : gmap string (@callable V).

Lemma apply_filters_spec (df : @IamDataFrame V) (kwargs : gmap string (list label))
    (k : Key) :
  _apply_filters df kwargs k = true ↔
  ∀ n vals, kwargs !! n = Some vals → ∃ l, get_level n k = Some l ∧ l ∈ vals.
Proof.
  unfold _apply_filters. rewrite forallb_forall. split.
  - intros Hall n vals Hn.
    specialize (Hall (n, vals)). simpl in Hall.
    destruct (get_level n k) as [l|].
    + exists l. split; [done|].
      assert (Hin : In (n, vals) (map_to_list kwargs))
        by (by apply list_elem_of_In, elem_of_map_to_list).
      apply Hall in Hin. by apply bool_decide_eq_true in Hin.
    + discriminate Hall. by apply list_elem_of_In, elem_of_map_to_list.
  - intros Hall [n vals] Hin. simpl.
    apply list_elem_of_In, elem_of_map_to_list in Hin.
    destruct (Hall n vals Hin) as (l & -> & Hl). by apply bool_decide_eq_true_2.
Qed.

Lemma apply_filters_time (df : @IamDataFrame V) variables column components (k : Key) :
  _apply_filters df (<[ column := components ]> {[ "variable" := LStr <$> variables ]}) k
    = true ↔
  is_time_row variables column components k = true.
Proof.
  rewrite apply_filters_spec. unfold is_time_row.
  rewrite andb_true_iff, orb_true_iff, bool_decide_eq_true. split.
  - intros Hall. split.
    + destruct (Hall column components) as (l & -> & Hl); [apply lookup_insert_eq|].
      by apply bool_decide_eq_true_2.
    + destruct (decide (column = "variable")) as [|Hne]; [by left|]. right.
      destruct (Hall "variable" (LStr <$> variables)) as (l & Hl & Hin).
      { rewrite lookup_insert_ne by done. apply lookup_singleton_eq. }
      apply list_elem_of_fmap in Hin as (v & -> & Hv).
      unfold get_str. rewrite Hl. by apply bool_decide_eq_true_2.
  - intros [Hcol Hvar] n vals Hn.
    destruct (decide (column = n)) as [<-|Hne].
    + rewrite lookup_insert_eq in Hn. injection Hn as <-.
      destruct (get_level column k) as [l|]; [|done].
      exists l. split; [done|]. by apply bool_decide_eq_true in Hcol.
    + rewrite lookup_insert_ne in Hn by done.
      apply lookup_singleton_Some in Hn as [<- <-].
      destruct Hvar as [->|Hvar]; [done|].
      unfold get_str in Hvar.
      destruct (get_level "variable" k) as [[v| |]|]; try done.
      exists (LStr v). split; [done|]. apply list_elem_of_fmap.
      exists v. split; [done|]. by apply bool_decide_eq_true in Hvar.
Qed.

Lemma get_level_alter_ne f n m (k : Key) :
  n ≠ m → get_level n (alter_level f m k) = get_level n k.
Proof.
  intros Hne. induction k as [|[n' l] k IH]; [done|]. simpl.
  destruct (decide (n' = m)) as [->|Hm].
  - rewrite !get_level_cons. simpl. by rewrite !decide_False by done.
  - rewrite !get_level_cons. simpl. by rewrite IH.
Qed.

Lemma key_ext (k1 k2 : Key) :
  NoDup k1.*1 → k1.*1 = k2.*1 →
  (∀ n, n ∈ k1.*1 → get_level n k1 = get_level n k2) → k1 = k2.
Proof.
  revert k2. induction k1 as [|[n1 l1] k1 IH]; intros [|[n2 l2] k2]; csimpl; try done.
  intros [Hn1 Hnd]%NoDup_cons [= <- Hnames] Hlev.
  assert (l1 = l2) as <-.
  { specialize (Hlev n1 ltac:(by left)).
    rewrite !get_level_cons in Hlev. simpl in Hlev.
    rewrite !decide_True in Hlev by done. congruence. }
  f_equal. apply IH; [done..|]. intros n Hn.
  specialize (Hlev n ltac:(by right)).
  rewrite !get_level_cons in Hlev. simpl in Hlev.
  rewrite !decide_False in Hlev by (intros ->; done). done.
Qed.

Lemma lookup_row_mapped {A} (h : Key → Key) (g : Key → A) (keys : list Key) (k0 : Key) :
  (∀ x y, x ∈ keys → y ∈ keys → h x = h y → x = y) →
  k0 ∈ keys →
  lookup_row (h k0) ((λ k, (h k, g k)) <$> keys) = Some (g k0).
Proof.
  induction keys as [|k keys IH]; intros Hinj Hin; [by apply elem_of_nil in Hin|].
  csimpl. destruct (decide (h k0 = h k)) as [Heq|Hne].
  - apply Hinj in Heq as ->; [done|done|by left].
  - apply IH.
    + intros x y Hx Hy. apply Hinj; by right.
    + apply elem_of_cons in Hin as [->|Hin]; [done|done].
Qed.

Section Column.

Variable df : @IamDataFrame V.
Variable column : string.
Variable value : label.
Hypothesis Hwf : wf_frame df.
Hypothesis Hval : "value" ∉ _LONG_IDX df.

Lemma in_time_index c : c ∈ time_index df column ↔ c ∈ _LONG_IDX df ∧ c ≠ column.
Proof.
  unfold time_index. rewrite list_elem_of_filter, !not_elem_of_cons. split.
  - intros [(? & _) ?]. done.
  - intros [Hc Hne]. split; [|done]. split; [done|]. split; [|apply not_elem_of_nil].
    intros ->. done.
Qed.

Lemma time_key_names (k : Key) :
  k.*1 = time_index df column → (time_key df column value k).*1 = _LONG_IDX df.
Proof.
  intros Hk. apply project_names_sub. intros c Hc. csimpl. rewrite Hk.
  destruct (decide (c = column)) as [->|Hne]; [by left|].
  right. by apply in_time_index.
Qed.

Lemma time_key_alter (p : Key) :
  p.*1 = _LONG_IDX df →
  time_key df column value (project (time_index df column) p) =
    alter_level (λ _, value) column p.
Proof.
  intros Hp. destruct Hwf as [Hnd _].
  assert (Hidx : (project (time_index df column) p).*1 = time_index df column).
  { apply project_names_sub. intros c [Hc _]%in_time_index. by rewrite Hp. }
  apply key_ext.
  - by rewrite time_key_names.
  - by rewrite time_key_names, alter_level_names.
  - rewrite time_key_names by done. intros n Hn. unfold time_key.
    rewrite get_level_project, decide_True by done.
    rewrite get_level_cons. simpl.
    destruct (decide (column = n)) as [<-|Hne].
    + rewrite get_level_alter.
      destruct (get_level column p) as [l|] eqn:El; [done|].
      apply get_level_None in El. by rewrite Hp in El.
    + rewrite get_level_alter_ne by done.
      rewrite get_level_project, decide_True; [done|]. by apply in_time_index.
Qed.

Lemma time_key_inj (k k' : Key) :
  k.*1 = time_index df column → k'.*1 = time_index df column →
  time_key df column value k = time_key df column value k' → k = k'.
Proof.
  destruct Hwf as [Hnd _].
  assert (Hinv : ∀ x : Key, x.*1 = time_index df column →
            project (time_index df column) (time_key df column value x) = x).
  { intros x Hx. unfold time_key.
    rewrite project_project by (by intros c [? _]%in_time_index).
    rewrite project_cons_notin by (simpl; by intros [_ ?]%in_time_index).
    rewrite <- Hx. apply project_names. rewrite Hx.
    unfold time_index. by apply NoDup_filter. }
  intros Hk Hk' Heq. rewrite <- (Hinv k Hk), <- (Hinv k' Hk'). by rewrite Heq.
Qed.

Variable variable : variable_arg.
Variable components : list label.

Local Abbreviation rows :=
  (filter (λ r : Key * V, is_time_row (to_list variable) column components r.1 = true)
     (_data df)).

Local Abbreviation group_keys :=
  (sort_keys (remove_dups ((λ r : Key * V, project (time_index df column) r.1) <$> rows))).

Lemma time_selection :
  _data (df_filter df (<[ column := components ]>
                         {[ "variable" := LStr <$> to_list variable ]})) = rows.
Proof.
  unfold df_filter, select. simpl. apply filter_ext_in. intros r _.
  apply apply_filters_time.
Qed.

Lemma rows_names r : r ∈ rows → r.1.*1 = _LONG_IDX df.
Proof.
  intros [_ Hr]%list_elem_of_filter. by destruct (wf_series_elem _ _ r Hwf Hr).
Qed.

Lemma group_keys_elem (k : Key) :
  k ∈ group_keys ↔ ∃ p, p ∈ rows ∧ k = project (time_index df column) p.1.
Proof.
  rewrite elem_of_sort_keys, elem_of_remove_dups, list_elem_of_fmap.
  split; intros (p & ? & ?); by exists p.
Qed.

Lemma group_keys_names (k : Key) : k ∈ group_keys → k.*1 = time_index df column.
Proof.
  intros (p & Hp & ->)%group_keys_elem. apply project_names_sub.
  intros c [Hc _]%in_time_index. by rewrite rows_names.
Qed.

Lemma time_project (k : Key) :
  k.*1 = _LONG_IDX df →
  project (time_index df column) k = droplevel_key [column; "value"] k.
Proof.
  intros Hk. destruct Hwf as [Hnd _]. symmetry.
  by apply droplevel_key_project.
Qed.

Lemma aggregate_time_eq method f :
  _get_method_func KNOWN_FUNCS method = ret f →
  (∃ p, p ∈ rows) →
  _aggregate_time KNOWN_FUNCS df variable column value (Some components) method =
    ret ((λ k : Key,
            (time_key df column value k,
             call f ((λ c, match snd <$> filter (λ r : Key * V,
                                    project (time_index df column) r.1 = k ∧
                                    get_level column r.1 = Some c) rows with
                           | [] => nan
                           | vs => vmean vs
                           end) <$>
                     sort_labels (remove_dups (omap (λ r, get_level column r.1) rows)))))
          <$> group_keys).
Proof.
  intros Hf [p Hp]. unfold _aggregate_time. rewrite bind_ret_l. cbv zeta.
  rewrite time_selection.
  rewrite bool_decide_eq_false_2 by (intros Hnil; rewrite Hnil in Hp; by apply elem_of_nil in Hp).
  rewrite Hf, bind_ret_l.
  apply list_elem_of_filter in Hp as [_ Hp].
  rewrite (index_names_elem (_LONG_IDX df) (_data df) p Hwf Hp).
  unfold pivot_table. fold (time_index df column).
  by rewrite <- !list_fmap_compose.
Qed.

Lemma aggregate_time_value method f :
  _get_method_func KNOWN_FUNCS method = ret f →
  (∃ p, p ∈ rows) →
  ∃ s, _aggregate_time KNOWN_FUNCS df variable column value (Some components) method =
         ret s ∧
       NoDup s.*1 ∧
       (∀ r, r ∈ s → ∃ p, p ∈ rows ∧ r.1 = alter_level (λ _, value) column p.1) ∧
       (∀ p, p ∈ rows →
          lookup_row (alter_level (λ _, value) column p.1) s =
            Some (call f (time_cells df (to_list variable) column components p.1))).
Proof.
  intros Hf [p0 Hp0]. eexists. split.
  { apply aggregate_time_eq; [done|]. by exists p0. }
  split; [|split].
  - rewrite <- list_fmap_compose. apply NoDup_fmap_2_strong.
    + intros k k' Hk Hk'. simpl. apply time_key_inj; by apply group_keys_names.
    + apply NoDup_sort_by, NoDup_remove_dups.
  - intros r (k & -> & Hk)%list_elem_of_fmap. simpl.
    apply group_keys_elem in Hk as (p & Hp & ->). exists p. split; [done|].
    apply time_key_alter. by apply rows_names.
  - intros p Hp. rewrite <- time_key_alter by (by apply rows_names).
    rewrite (lookup_row_mapped (time_key df column value)).
    + f_equal. f_equal. unfold time_cells, time_labels. apply fmap_ext_in.
      intros c _. rewrite list_filter_filter.
      rewrite (filter_ext_in _ (λ r : Key * V,
        is_time_row (to_list variable) column components r.1 = true ∧
        droplevel_key [column; "value"] r.1 = droplevel_key [column; "value"] p.1 ∧
        get_level column r.1 = Some c)); [done|].
      intros r Hr. simpl.
      rewrite <- (time_project p.1) by (by apply rows_names).
      destruct (wf_series_elem _ _ r Hwf Hr) as [Hn _].
      rewrite <- (time_project r.1) by done. tauto.
    + intros k k' Hk Hk'. apply time_key_inj; by apply group_keys_names.
    + apply group_keys_elem. by exists p.
Qed.

End Column.

End TimeLemmas.

Section GroupLemmas.
Context {V : Type} `{Values V}.
Variable KNOWN_FUNCS : gmap string (@callable V).

Lemma label_leb_total (a b : label) : label_leb a b = true ∨ label_leb b a = true.
Proof.
  destruct a as [x|x|], b as [y|y|]; simpl; auto.
  - apply String.leb_total.
  - destruct (Z.leb_spec x y); [by left|right]. apply Z.leb_le. lia.
Qed.

Lemma key_leb_total (a b : Key) : key_leb a b = true ∨ key_leb b a = true.
Proof.
  revert b. induction a as [|[n x] a IH]; intros [|[m y] b]; simpl; auto.
  destruct (decide (x = y)) as [->|Hne].
  - rewrite decide_True by done. apply IH.
  - rewrite decide_False by done. apply label_leb_total.
Qed.

Lemma sorted_insert_by {A} (leb : A → A → bool) (x : A) (l : list A) :
  (∀ a b, leb a b = true ∨ leb b a = true) →
  sorted_by leb l = true → sorted_by leb (insert_by leb x l) = true.
Proof.
  intros Htotal. induction l as [|y l IH]; [done|]. intros Hsorted.
  cbn [insert_by]. destruct (leb x y) eqn:Exy.
  - cbn [sorted_by]. by rewrite Exy.
  - assert (Hyx : leb y x = true) by (destruct (Htotal x y); congruence).
    destruct l as [|z l]; [simpl; by rewrite Hyx|].
    cbn [sorted_by] in Hsorted. apply andb_true_iff in Hsorted as [Hyz Hl].
    specialize (IH Hl). cbn [insert_by] in IH |- *.
    destruct (leb x z); cbn [sorted_by] in IH |- *.
    + by rewrite Hyx.
    + by rewrite Hyz.
Qed.

Lemma sorted_sort_by {A} (leb : A → A → bool) (l : list A) :
  (∀ a b, leb a b = true ∨ leb b a = true) → sorted_by leb (sort_by leb l) = true.
Proof.
  intros Htotal. induction l as [|x l IH]; [done|]. simpl.
  by apply sorted_insert_by.
Qed.

Lemma concat_cons_at {A} (k0 : Key) (x : A) (F : Key → list A) (keys : list Key) :
  NoDup keys → k0 ∈ keys →
  concat ((λ k, if decide (k0 = k) then x :: F k else F k) <$> keys) ≡ₚ
  x :: concat (F <$> keys).
Proof.
  induction keys as [|k keys IH]; intros Hnd Hin; [by apply elem_of_nil in Hin|].
  apply NoDup_cons in Hnd as [Hk Hnd]. csimpl.
  destruct (decide (k0 = k)) as [->|Hne].
  - rewrite (fmap_ext_in _ F keys); [done|].
    intros k' Hk'. rewrite decide_False; [done|]. by intros <-.
  - apply elem_of_cons in Hin as [?|Hin]; [done|].
    rewrite (IH Hnd Hin). by rewrite Permutation_middle.
Qed.

Lemma group_partition {A} cols (s : Series A) (keys : list Key) :
  NoDup keys → (∀ r, r ∈ s → project cols r.1 ∈ keys) →
  concat ((λ k, group cols k s) <$> keys) ≡ₚ s.*2.
Proof.
  intros Hnd. induction s as [|r s IH]; intros Hall.
  - unfold group. simpl. clear. induction keys as [|k keys IH]; [done|]. by csimpl.
  - rewrite (fmap_ext_in _ (λ k, if decide (project cols r.1 = k)
                                 then r.2 :: group cols k s else group cols k s)).
    + rewrite concat_cons_at; [|done|apply Hall; by left]. csimpl. f_equiv.
      apply IH. intros r' Hr'. apply Hall. by right.
    + intros k _. unfold group. rewrite filter_cons.
      by destruct (decide (project cols r.1 = k)).
Qed.

Lemma group_and_agg_groups (s : Series V) (by_ : list string) method f :
  _get_method_func KNOWN_FUNCS method = ret f →
  ∃ g, _group_and_agg KNOWN_FUNCS s by_ method = ret g ∧
       NoDup g.*1 ∧
       sorted_by key_leb g.*1 = true ∧
       (∀ k, k ∈ g.*1 ↔
             ∃ p, p ∈ s ∧ project (filter (λ c, c ∉ by_) (index_names s)) p.1 = k) ∧
       (∀ r, r ∈ g →
          r.2 = call f (group (filter (λ c, c ∉ by_) (index_names s)) r.1 s)) ∧
       concat ((λ k, group (filter (λ c, c ∉ by_) (index_names s)) k s) <$> g.*1) ≡ₚ s.*2.
Proof.
  intros Hf. eexists. split; [by apply group_and_agg_resolved|].
  split; [apply NoDup_groupby|]. split; [|split; [|split]].
  - rewrite groupby_keys. apply sorted_sort_by, key_leb_total.
  - intros k. rewrite groupby_keys, elem_of_sort_keys, elem_of_remove_dups,
      list_elem_of_fmap.
    split; intros (p & ? & ?); by exists p.
  - by intros r [_ Hr]%groupby_elem.
  - apply group_partition; [apply NoDup_groupby|].
    intros r Hr. rewrite groupby_keys, elem_of_sort_keys, elem_of_remove_dups.
    apply list_elem_of_fmap. by exists r.
Qed.

End GroupLemmas.

Section WeightedRegion.
Context {V : Type} `{Values V}.
Variable KNOWN_FUNCS : gmap string (@callable V).

Lemma weighted_key_no_region (k : Key) : "region" ∉ (weighted_key k).*1.
Proof.
  unfold weighted_key, droplevel_key. rewrite fmap_app, elem_of_app.
  intros [Hin|Hin]; apply list_elem_of_fmap in Hin as ([n l] & Hn & Hin);
    simpl in Hn; subst n.
  - apply list_elem_of_filter in Hin as [Hno _]. apply Hno. by left.
  - apply list_elem_of_filter in Hin as [_ Hin].
    apply list_elem_of_filter in Hin as [Hno _]. apply Hno. by left.
Qed.

Lemma region_weighted_unfold (df : @IamDataFrame V) variable region subregions
    method w :
  py_or subregions (_all_other_regions df region variable) ≠ [] →
  _aggregate_region KNOWN_FUNCS df variable region subregions CFalse method (Some w) =
    do s <- _agg_weight
              (filter (λ r : Key * V,
                 is_region_row (py_or subregions (_all_other_regions df region variable))
                   (to_list variable) r.1 = true) (_data df))
              (filter (λ r : Key * V,
                 is_region_row (py_or subregions (_all_other_regions df region variable))
                   [w] r.1 = true) (_data df))
              method;
    ret (Some s).
Proof.
  intros Hsub. unfold _aggregate_region.
  rewrite (bool_decide_eq_false_2 (CFalse ≠ CFalse)) by (intros Hn; by apply Hn).
  rewrite !andb_false_r.
  rewrite bool_decide_eq_false_2 by (intros Hlen; by apply Hsub, nil_length_inv).
  rewrite subregion_rows.
  rewrite (subregion_rows df _ (VStr w)). cbn [to_list].
  apply bind_ext. intros s. by rewrite bind_ret_l.
Qed.

End WeightedRegion.

(** ** The claims *)

(** C1. On a well-formed dataset, aggregating a variable that has children
    in the data, with the default method, returns a series whose value at
    every key is the sum of the values of the children at that key once it
    is relabelled to the variable, and which has no other keys; A|B = 1
    and A|C = 2 at one model, scenario, region, unit and year give A = 3. *)
Theorem aggregate_reduces_children :
  (∀ (V : Type) (HV : Values V) (KNOWN_FUNCS : gmap string (@callable V))
     (df : IamDataFrame) (variable : string),
     wf_frame df →
     _variable_components df variable (Some 0) ≠ [] →
     ∃ s, _aggregate KNOWN_FUNCS df (VStr variable) None (MCallable np_sum) =
            ([], Return (Some s)) ∧
          ∀ k, lookup_row k s =
                 match children_at df variable k with
                 | [] => None
                 | vs => Some (vsum vs)
                 end) ∧
  _aggregate KNOWN_FUNCS_Q df_children (VStr "A") None (MCallable np_sum) =
    ([], Return (Some [iamc_row "World" "A" 3])).
Proof.
  split; [|by vm_compute].
  intros V HV KNOWN_FUNCS df variable Hwf Hne.
  by apply (aggregate_children KNOWN_FUNCS df variable (MCallable np_sum) np_sum).
Qed.

Lemma wf_df_children : wf_frame df_children.
Proof.
  split; [|repeat constructor].
  apply (bool_decide_unpack (NoDup (_LONG_IDX df_children))). by vm_compute.
Defined.

Lemma aggregate_reduces_children_witness :
  wf_frame df_children ∧
  _variable_components df_children "A" (Some 0) ≠ [] ∧
  ∃ s, _aggregate KNOWN_FUNCS_Q df_children (VStr "A") None (MCallable np_sum) =
         ([], Return (Some s)) ∧
       ∀ k, lookup_row k s =
              match children_at df_children "A" k with
              | [] => None
              | vs => Some (vsum vs)
              end.
Proof.
  split; [exact wf_df_children|].
  split; [by vm_compute|].
  apply (proj1 aggregate_reduces_children); [exact wf_df_children|by vm_compute].
Defined.




(** C3. For a data series and a weight series with the levels of one
    container, with the method sum and the index of the weight without
    variable and unit equal to that of the data without them, the weighted
    region aggregator returns, at the key of every row of the data (its
    levels without region), the sum over the rows that differ from it in
    region only of value times weight, divided by the sum of the weights
    at the same levels without region, variable and unit; the result has
    no other key. *)
Theorem agg_weight_weighted_average :
  (∀ (V : Type) (HV : Values V) (names : list string) (data weight : Series V)
     (method : method_arg),
     wf_series names data →
     wf_series names weight →
     method = MName "sum" ∨ method = MCallable np_sum →
     index_labels (droplevel ["variable"; "unit"] data) =
       index_labels (droplevel ["variable"; "unit"] weight) →
     ∃ s, _agg_weight data weight method = ([], Return s) ∧
          (∀ ra, ra ∈ data →
             lookup_row (weighted_key ra.1) s =
               Some (vdiv (vsum (weighted_terms data weight ra.1))
                          (vsum (weights_at weight ra.1)))) ∧
          (∀ k, k ∉ (λ r : Key * V, weighted_key r.1) <$> data →
             lookup_row k s = None)) ∧
  _agg_weight [iamc_row "reg_a" "Price" 1; iamc_row "reg_b" "Price" 2]
              [iamc_row "reg_a" "Population" 10; iamc_row "reg_b" "Population" 30]
              (MName "sum") =
    ([], Return [(weighted_key (iamc_key "reg_a" "Price"), Some (7 # 4)%Q)]).
Proof.
  split; [|by vm_compute].
  intros V HV names data weight method [Hnd Hd] Hw Hsum Hidx.
  apply (agg_weight_value names Hnd data weight (conj Hnd Hd) Hw Hidx).
  by destruct Hsum as [-> | ->].
Qed.

Lemma agg_weight_weighted_average_witness :
  let data := [iamc_row "reg_a" "Price" 1; iamc_row "reg_b" "Price" 2] in
  let weight := [iamc_row "reg_a" "Population" 10; iamc_row "reg_b" "Population" 30] in
  ∃ s, _agg_weight data weight (MName "sum") = ([], Return s) ∧
       (∀ ra, ra ∈ data →
          lookup_row (weighted_key ra.1) s =
            Some (vdiv (vsum (weighted_terms data weight ra.1))
                       (vsum (weights_at weight ra.1)))) ∧
       (∀ k, k ∉ (λ r : Key * option Q, weighted_key r.1) <$> data →
          lookup_row k s = None).
Proof.
  intros data weight.
  apply (proj1 agg_weight_weighted_average (option Q) Q_values IAMC_IDX data weight
           (MName "sum")).
  - split; [|repeat constructor].
    apply (bool_decide_unpack (NoDup IAMC_IDX)). by vm_compute.
  - split; [|repeat constructor].
    apply (bool_decide_unpack (NoDup IAMC_IDX)). by vm_compute.
  - by left.
  - by vm_compute.
Defined.

(** C4. With [components] omitted the time aggregator takes its default
    from the column [subannual], whatever [column] is given: on a dataset
    with the time slices in a column [season] it reduces one slice only,
    where the labels of [season] other than [value], given explicitly,
    reduce both. *)
Theorem aggregate_time_default_ignores_column :
  default_time_components df_seasons (LStr "year") = ([], Return [LStr "winter"]) ∧
  column_components df_seasons "season" (LStr "year") = [LStr "winter"; LStr "summer"] ∧
  _aggregate_time KNOWN_FUNCS_Q df_seasons (VStr "A") "season" (LStr "year") None
    (MCallable np_sum) =
    ([], Return [(iamc_key "World" "A" ++
                    [("subannual", LStr "winter"); ("season", LStr "year")],
                  Some (inject_Z 1))]) ∧
  _aggregate_time KNOWN_FUNCS_Q df_seasons (VStr "A") "season" (LStr "year")
    (Some (column_components df_seasons "season" (LStr "year"))) (MCallable np_sum) =
    ([], Return [(iamc_key "World" "A" ++
                    [("subannual", LStr "winter"); ("season", LStr "year")],
                  Some (inject_Z 3))]).
Proof. repeat split; by vm_compute. Qed.

(** C5. The variable aggregator called with a list of variables and an
    explicit list of components, and the region aggregator called with a
    list of variables or with a weight while [components] is not [False],
    raise the invalid-argument error: whatever the data, with nothing
    logged and nothing computed. *)
Theorem conflicting_arguments_raise :
  ∀ (V : Type) (HV : Values V) (KNOWN_FUNCS : gmap string (@callable V)) (df : IamDataFrame),
    (∀ vs components method,
       _aggregate KNOWN_FUNCS df (VList vs) (Some components) method =
         ([], Raise (ValueError msg_list_components))) ∧
    (∀ vs region subregions components method weight,
       components ≠ CFalse →
       _aggregate_region KNOWN_FUNCS df (VList vs) region subregions components method weight =
         ([], Raise (ValueError msg_region_list_components))) ∧
    (∀ v region subregions components method w,
       components ≠ CFalse →
       _aggregate_region KNOWN_FUNCS df (VStr v) region subregions components method (Some w) =
         ([], Raise (ValueError msg_weight_components))) ∧
    spec_error_kind (ValueError msg_list_components) = Some InvalidArgumentError ∧
    spec_error_kind (ValueError msg_region_list_components) = Some InvalidArgumentError ∧
    spec_error_kind (ValueError msg_weight_components) = Some InvalidArgumentError.
Proof.
  intros V HV KNOWN_FUNCS df. repeat split.
  - intros vs region subregions components method weight Hc.
    unfold _aggregate_region. cbn [isstr negb andb].
    by rewrite bool_decide_eq_true_2.
  - intros v region subregions components method w Hc.
    unfold _aggregate_region. cbn [isstr negb andb].
    rewrite (bool_decide_eq_true_2 (Some w ≠ None)) by done.
    by rewrite (bool_decide_eq_true_2 (components ≠ CFalse)).
Qed.

Lemma conflicting_arguments_raise_witness :
  _aggregate_region KNOWN_FUNCS_Q df_regions (VList ["Price"]) "World" None CTrue
    (MName "sum") None = ([], Raise (ValueError msg_region_list_components)) ∧
  _aggregate_region KNOWN_FUNCS_Q df_regions (VStr "Price") "World" None (CList ["Price|x"])
    (MName "sum") (Some "Population") = ([], Raise (ValueError msg_weight_components)).
Proof.
  destruct (conflicting_arguments_raise (option Q) Q_values KNOWN_FUNCS_Q df_regions)
    as (_ & Hlist & Hweight & _).
  split; [apply Hlist|apply Hweight]; discriminate.
Defined.

(** C6. The weighted region aggregator raises the invalid-argument error
    for every method other than sum, "mean" among them; for sum it raises
    the inconsistent-index error when the index of the weight, without the
    levels variable and unit, differs from that of the data without them. *)
Theorem agg_weight_errors :
  ∀ (V : Type) (HV : Values V) (data weight : Series V),
    (∀ method,
       method ≠ MName "sum" → method ≠ MCallable np_sum →
       _agg_weight data weight method = ([], Raise (ValueError msg_only_sum))) ∧
    _agg_weight data weight (MName "mean") = ([], Raise (ValueError msg_only_sum)) ∧
    (∀ method,
       method = MName "sum" ∨ method = MCallable np_sum →
       index_labels (droplevel ["variable"; "unit"] data) ≠
         index_labels (droplevel ["variable"; "unit"] weight) →
       _agg_weight data weight method = ([], Raise (ValueError msg_inconsistent_index))) ∧
    spec_error_kind (ValueError msg_only_sum) = Some InvalidArgumentError ∧
    spec_error_kind (ValueError msg_inconsistent_index) = Some InconsistentIndexError.
Proof.
  intros V HV data weight. repeat split.
  - intros method Hn Hc. unfold _agg_weight. by rewrite is_sum_false.
  - intros method Hsum Hidx. unfold _agg_weight.
    assert (is_sum method = true) as -> by (by destruct Hsum as [-> | ->]).
    cbn [negb]. unfold index_equals.
    by rewrite bool_decide_eq_false_2.
Qed.

Lemma agg_weight_errors_witness :
  _agg_weight [iamc_row "reg_a" "Price" 1] [iamc_row "reg_a" "Population" 10]
    (MName "max") = ([], Raise (ValueError msg_only_sum)) ∧
  _agg_weight [iamc_row "reg_a" "Price" 1] [iamc_row "reg_b" "Population" 10]
    (MName "sum") = ([], Raise (ValueError msg_inconsistent_index)).
Proof.
  destruct (agg_weight_errors (option Q) Q_values
              [iamc_row "reg_a" "Price" 1] [iamc_row "reg_a" "Population" 10])
    as (Hmethod & _).
  destruct (agg_weight_errors (option Q) Q_values
              [iamc_row "reg_a" "Price" 1] [iamc_row "reg_b" "Population" 10])
    as (_ & _ & Hindex & _).
  split; [apply Hmethod; discriminate|].
  apply Hindex; [by left|]. by vm_compute.
Defined.

(** C7. When a single variable has no components, the variable aggregator
    does not raise: it logs one message and returns nothing.  When no
    subregions are found, the region aggregator, given arguments that
    pass its checks, does not raise: it logs one message and returns
    nothing. *)
Theorem nothing_to_aggregate_returns_none :
  ∀ (V : Type) (HV : Values V) (KNOWN_FUNCS : gmap string (@callable V)) (df : IamDataFrame),
    (∀ v components method,
       py_or components (_variable_components df v (Some 0)) = [] →
       _aggregate KNOWN_FUNCS df (VStr v) components method =
         ([msg_no_components v], Return None)) ∧
    (∀ variable region subregions components method weight,
       isstr variable = true ∨ components = CFalse →
       weight = None ∨ components = CFalse →
       py_or subregions (_all_other_regions df region variable) = [] →
       _aggregate_region KNOWN_FUNCS df variable region subregions components method weight =
         ([msg_no_subregions (format_variable variable) region], Return None)).
Proof.
  intros V HV KNOWN_FUNCS df. split.
  - intros v components method Hno. unfold _aggregate, build_mapping.
    cbn [islistable andb]. rewrite Hno. done.
  - intros variable region subregions components method weight Hv Hw Hno.
    unfold _aggregate_region. rewrite Hno.
    assert (negb (isstr variable) && bool_decide (components ≠ CFalse) = false) as ->.
    { destruct Hv as [-> | ->]; [done|].
      rewrite bool_decide_eq_false_2 by (intros Hn; by apply Hn). apply andb_false_r. }
    assert (bool_decide (weight ≠ None) && bool_decide (components ≠ CFalse) = false) as ->.
    { destruct Hw as [-> | ->].
      - by rewrite bool_decide_eq_false_2 by (intros Hn; by apply Hn).
      - rewrite (bool_decide_eq_false_2 (CFalse ≠ CFalse)) by (intros Hn; by apply Hn).
        apply andb_false_r. }
    done.
Qed.

Lemma nothing_to_aggregate_returns_none_witness :
  _aggregate KNOWN_FUNCS_Q df_children (VStr "A|B") None (MCallable np_sum) =
    ([msg_no_components "A|B"], Return None) ∧
  _aggregate_region KNOWN_FUNCS_Q df_regions (VStr "Emissions") "World" None CFalse
    (MName "sum") None =
    ([msg_no_subregions "Emissions" "World"], Return None).
Proof.
  destruct (nothing_to_aggregate_returns_none (option Q) Q_values KNOWN_FUNCS_Q df_children)
    as (Hvar & _).
  destruct (nothing_to_aggregate_returns_none (option Q) Q_values KNOWN_FUNCS_Q df_regions)
    as (_ & Hreg).
  split; [apply Hvar; by vm_compute|].
  apply (Hreg (VStr "Emissions")); [by left|by left|by vm_compute].
Defined.

(** C8. The method resolver returns the reduction of a known name, raises
    the unknown-method error for a name that is not known ("bogus" in
    pyam's table), and returns anything that is not a name unchanged. *)
Theorem get_method_func_resolves :
  (∀ (V : Type) (HV : Values V) (KNOWN_FUNCS : gmap string (@callable V)),
     (∀ name f,
        KNOWN_FUNCS !! name = Some f →
        _get_method_func KNOWN_FUNCS (MName name) = ([], Return f)) ∧
     (∀ name,
        KNOWN_FUNCS !! name = None →
        _get_method_func KNOWN_FUNCS (MName name) =
          ([], Raise (ValueError (msg_unknown_method name))) ∧
        spec_error_kind (ValueError (msg_unknown_method name)) = Some UnknownMethodError) ∧
     (∀ c, _get_method_func KNOWN_FUNCS (MCallable c) = ([], Return c))) ∧
  _get_method_func KNOWN_FUNCS_Q (MName "bogus") =
    ([], Raise (ValueError "'bogus' is not a known method!")).
Proof.
  split; [|by vm_compute].
  intros V HV KNOWN_FUNCS. split; [|split; [|done]].
  - intros name f Hf. unfold _get_method_func. by rewrite Hf.
  - intros name Hname. split; [|apply msg_unknown_method_kind].
    unfold _get_method_func. by rewrite Hname.
Qed.

Lemma get_method_func_resolves_witness :
  _get_method_func KNOWN_FUNCS_Q (MName "sum") = ([], Return np_sum) ∧
  _get_method_func KNOWN_FUNCS_Q (MName "median") =
    ([], Raise (ValueError (msg_unknown_method "median"))).
Proof.
  destruct (proj1 get_method_func_resolves (option Q) Q_values KNOWN_FUNCS_Q)
    as (Hknown & Hunknown & _).
  split; [apply Hknown; by vm_compute|].
  apply Hunknown. by vm_compute.
Defined.

(** C9. The region aggregator given an empty list of subregions does what
    it does when the argument is omitted: the subregions default to all
    other regions with data for the variable, and where there are some
    the early return is not taken. *)
Theorem empty_subregions_as_omitted :
  (∀ (V : Type) (HV : Values V) (KNOWN_FUNCS : gmap string (@callable V)) (df : IamDataFrame)
     variable region components method weight,
     _aggregate_region KNOWN_FUNCS df variable region (Some []) components method weight =
     _aggregate_region KNOWN_FUNCS df variable region None components method weight) ∧
  _aggregate_region KNOWN_FUNCS_Q df_regions (VStr "Price") "World" (Some []) CFalse
    (MName "sum") None =
    ([], Return (Some [(droplevel_key ["region"] (iamc_key "World" "Price"),
                        Some (inject_Z 3))])).
Proof. split; [done|by vm_compute]. Qed.

(** C10. With a list of variables the variable aggregator never returns
    nothing: the variables without components are logged and skipped, and
    the remaining ones are aggregated.  On a well-formed dataset the value
    at every key labelled with a listed variable is the reduction of the
    children of that variable at the key, and the result has no other
    key; when every variable lacks components it is the empty series: the
    reduction of an empty selection under an empty mapping.  Of A, A|B and
    A|E over A|B|C = 1, A|B|D = 2 and A|E = 3 the last is skipped, the
    result is A = 3 and A|B = 3. *)
Theorem aggregate_list_skips :
  (∀ (V : Type) (HV : Values V) (KNOWN_FUNCS : gmap string (@callable V))
     (df : IamDataFrame) (vs : list string) (method : method_arg),
     (_aggregate KNOWN_FUNCS df (VList vs) None method).1 =
       msg_no_components <$> skipped df vs ∧
     (_aggregate KNOWN_FUNCS df (VList vs) None method).2 ≠ Return None ∧
     (_aggregate KNOWN_FUNCS df (VList vs) None method).2 =
       (_aggregate KNOWN_FUNCS df (VList (kept df vs)) None method).2 ∧
     (∀ f, kept df vs = [] →
           _get_method_func KNOWN_FUNCS method = ([], Return f) →
           mapping_of df (kept df vs) = ∅ ∧
           _aggregate KNOWN_FUNCS df (VList vs) None method =
             (msg_no_components <$> vs, Return (Some []))) ∧
     (∀ f, wf_frame df →
           _get_method_func KNOWN_FUNCS method = ([], Return f) →
           ∃ s, _aggregate KNOWN_FUNCS df (VList vs) None method =
                  (msg_no_components <$> skipped df vs, Return (Some s)) ∧
                ∀ k, lookup_row k s =
                       match get_str "variable" k with
                       | Some v =>
                           if decide (v ∈ vs) then
                             match children_at df v k with
                             | [] => None
                             | xs => Some (call f xs)
                             end
                           else None
                       | None => None
                       end)) ∧
  _aggregate KNOWN_FUNCS_Q df_tree (VList ["A"; "A|B"; "A|E"]) None (MName "sum") =
    ([msg_no_components "A|E"],
     Return (Some [iamc_row "World" "A" 3; iamc_row "World" "A|B" 3])).
Proof.
  split; [|by vm_compute].
  intros V HV KNOWN_FUNCS df vs method.
  rewrite !aggregate_list_eq. cbn [fst snd].
  split; [done|]. split; [apply rename_and_aggregate_not_none|].
  split; [unfold kept; by rewrite filter_idemp|]. split.
  - intros f Hkept Hf. rewrite Hkept. split; [done|].
    rewrite skipped_all by done.
    by rewrite (rename_and_aggregate_empty KNOWN_FUNCS df method f).
  - intros f Hwf Hf.
    destruct (aggregate_list_values KNOWN_FUNCS df vs method f Hwf Hf)
      as (s & Hs & Hlook).
    exists s. split; [|done]. by rewrite <- aggregate_list_eq.
Qed.

Lemma aggregate_list_skips_witness :
  (kept df_children ["A|B"; "A|C"] = [] ∧
   _aggregate KNOWN_FUNCS_Q df_children (VList ["A|B"; "A|C"]) None (MName "sum") =
     ([msg_no_components "A|B"; msg_no_components "A|C"], Return (Some []))) ∧
  (skipped df_tree ["A"; "A|B"; "A|E"] = ["A|E"] ∧
   ∃ s, _aggregate KNOWN_FUNCS_Q df_tree (VList ["A"; "A|B"; "A|E"]) None (MName "sum") =
          (msg_no_components <$> skipped df_tree ["A"; "A|B"; "A|E"], Return (Some s)) ∧
        ∀ k, lookup_row k s =
               match get_str "variable" k with
               | Some v =>
                   if decide (v ∈ ["A"; "A|B"; "A|E"]) then
                     match children_at df_tree v k with
                     | [] => None
                     | xs => Some (qsum xs)
                     end
                   else None
               | None => None
               end).
Proof.
  split.
  - split; [by vm_compute|].
    apply (proj1 aggregate_list_skips (option Q) Q_values KNOWN_FUNCS_Q df_children
             ["A|B"; "A|C"] (MName "sum")) with (f := np_sum); by vm_compute.
  - split; [by vm_compute|].
    apply (proj1 aggregate_list_skips (option Q) Q_values KNOWN_FUNCS_Q df_tree
             ["A"; "A|B"; "A|E"] (MName "sum")) with (f := np_sum); [|by vm_compute].
    split; [|repeat constructor].
    apply (bool_decide_unpack (NoDup IAMC_IDX)). by vm_compute.
Defined.

(** ** Further properties *)

(** X1. With an explicit, non-empty list of components, names without
    wildcard, the variable aggregator uses exactly the rows of those
    components: on a well-formed
    dataset the value at every key is the reduction of the rows of the
    listed components whose key relabelled to the variable is that key; if
    no row belongs to a listed component it returns the empty series, not
    nothing. *)
Theorem aggregate_explicit_components :
  ∀ (V : Type) (HV : Values V) (KNOWN_FUNCS : gmap string (@callable V))
    (df : IamDataFrame) (variable c : string) (cs : list string)
    (method : method_arg) (f : callable),
    wf_frame df →
    Forall (λ c, is_literal c = true) (c :: cs) →
    _get_method_func KNOWN_FUNCS method = ([], Return f) →
    ∃ s, _aggregate KNOWN_FUNCS df (VStr variable) (Some (c :: cs)) method =
           ([], Return (Some s)) ∧
         (∀ k, lookup_row k s =
                 match components_at df (c :: cs) variable k with
                 | [] => None
                 | vs => Some (call f vs)
                 end) ∧
         ((∀ r, r ∈ _data df → is_component_row (c :: cs) r.1 = false) → s = []).
Proof.
  intros V HV KNOWN_FUNCS df variable c cs method f Hwf _ Hf.
  destruct (aggregate_components KNOWN_FUNCS df variable (Some (c :: cs)) method f)
    as (s & Hs & Hlook); [done..|].
  exists s. split; [done|]. split; [done|]. intros Hnone.
  destruct s as [|[k v] s]; [done|]. specialize (Hlook k).
  simpl in Hlook. rewrite decide_True in Hlook by done.
  unfold components_at in Hlook. rewrite filter_none in Hlook; [done|].
  intros r Hr [Hrow _]. by rewrite (Hnone r Hr) in Hrow.
Qed.

Lemma aggregate_explicit_components_witness :
  ∃ s, _aggregate KNOWN_FUNCS_Q df_tree (VStr "Total") (Some ["A|B|C"; "A|E"])
         (MName "max") = ([], Return (Some s)) ∧
       (∀ k, lookup_row k s =
               match components_at df_tree ["A|B|C"; "A|E"] "Total" k with
               | [] => None
               | vs => Some (qbest (λ b a, negb (Qle_bool b a)) vs)
               end) ∧
       ((∀ r, r ∈ _data df_tree → is_component_row ["A|B|C"; "A|E"] r.1 = false) →
        s = []).
Proof.
  apply (aggregate_explicit_components (option Q) Q_values KNOWN_FUNCS_Q df_tree
           "Total" "A|B|C" ["A|E"] (MName "max")
           (py_func (qbest (λ b a, negb (Qle_bool b a))))).
  - split; [|repeat constructor].
    apply (bool_decide_unpack (NoDup IAMC_IDX)). by vm_compute.
  - by repeat constructor.
  - by vm_compute.
Defined.

(** X2. An explicit empty list of components is taken as no list for a
    single variable, which falls back to the children found in the data,
    but is refused with a list of variables. *)
Theorem empty_components_fall_back :
  ∀ (V : Type) (HV : Values V) (KNOWN_FUNCS : gmap string (@callable V))
    (df : IamDataFrame) (method : method_arg),
    (∀ v, _aggregate KNOWN_FUNCS df (VStr v) (Some []) method =
          _aggregate KNOWN_FUNCS df (VStr v) None method) ∧
    (∀ vs, _aggregate KNOWN_FUNCS df (VList vs) (Some []) method =
           ([], Raise (ValueError msg_list_components))).
Proof. intros V HV KNOWN_FUNCS df method. by split. Qed.

(** X3. Whenever the variable aggregator returns a series, for components
    found in the data or given as names without wildcard, no key occurs
    twice in it, and every row carries one of the requested variables at
    its variable level: the names of the components are gone. *)
Theorem aggregate_result_rows :
  ∀ (V : Type) (HV : Values V) (KNOWN_FUNCS : gmap string (@callable V))
    (df : IamDataFrame) (variable : variable_arg) (components : option (list string))
    (method : method_arg) (lg : list string) (s : Series V),
    (∀ cs, components = Some cs → Forall (λ c, is_literal c = true) cs) →
    _aggregate KNOWN_FUNCS df variable components method = (lg, Return (Some s)) →
    NoDup s.*1 ∧
    ∀ r, r ∈ s → ∃ v, v ∈ to_list variable ∧ get_str "variable" r.1 = Some v.
Proof.
  intros V HV KNOWN_FUNCS df variable components method lg s _.
  apply aggregate_rows.
Qed.

Lemma aggregate_result_rows_witness :
  NoDup [iamc_row "World" "Total" 3].*1 ∧
  ∀ r, r ∈ [iamc_row "World" "Total" 3] →
       ∃ v, v ∈ to_list (VStr "Total") ∧ get_str "variable" r.1 = Some v.
Proof.
  apply (aggregate_result_rows (option Q) Q_values KNOWN_FUNCS_Q df_children
           (VStr "Total") (Some ["A|B"; "A|C"]) (MCallable np_sum) []).
  - intros cs [= <-]. by repeat constructor.
  - by vm_compute.
Defined.

(** X4. A method name that is not known makes the variable aggregator
    raise only where it reduces: a single variable with components raises,
    a list of variables always raises, after logging the variables it
    skips, while a single variable without components still returns
    nothing. *)
Theorem aggregate_unknown_method :
  ∀ (V : Type) (HV : Values V) (KNOWN_FUNCS : gmap string (@callable V))
    (df : IamDataFrame) (name : string),
    KNOWN_FUNCS !! name = None →
    (∀ v components,
       py_or components (_variable_components df v (Some 0)) ≠ [] →
       _aggregate KNOWN_FUNCS df (VStr v) components (MName name) =
         ([], Raise (ValueError (msg_unknown_method name)))) ∧
    (∀ vs, _aggregate KNOWN_FUNCS df (VList vs) None (MName name) =
           (msg_no_components <$> skipped df vs,
            Raise (ValueError (msg_unknown_method name)))) ∧
    (∀ v components,
       py_or components (_variable_components df v (Some 0)) = [] →
       _aggregate KNOWN_FUNCS df (VStr v) components (MName name) =
         ([msg_no_components v], Return None)).
Proof.
  intros V HV KNOWN_FUNCS df name Hname. split; [|split].
  - intros v components Hne. rewrite aggregate_single_eq by done.
    by apply rename_and_aggregate_unknown.
  - intros vs. rewrite aggregate_list_eq.
    by rewrite rename_and_aggregate_unknown.
  - intros v components Hno. unfold _aggregate, build_mapping.
    cbn [islistable andb]. by rewrite Hno.
Qed.

Lemma aggregate_unknown_method_witness :
  _aggregate KNOWN_FUNCS_Q df_children (VStr "A") None (MName "median") =
    ([], Raise (ValueError (msg_unknown_method "median"))) ∧
  _aggregate KNOWN_FUNCS_Q df_children (VList ["A|B"]) None (MName "median") =
    ([msg_no_components "A|B"], Raise (ValueError (msg_unknown_method "median"))) ∧
  _aggregate KNOWN_FUNCS_Q df_children (VStr "A|B") None (MName "median") =
    ([msg_no_components "A|B"], Return None).
Proof.
  destruct (aggregate_unknown_method (option Q) Q_values KNOWN_FUNCS_Q df_children
              "median") as (Hsingle & Hlist & Hnone); [by vm_compute|].
  split; [apply Hsingle; by vm_compute|]. split; [apply (Hlist ["A|B"])|].
  apply Hnone. by vm_compute.
Defined.

(** X5. Recursive aggregation of a variable with no descendant in the data
    (no variable [V|...]: a leaf, or an empty dataset) does not return: the
    maximum over no depths raises a ValueError, and nothing is logged. *)
Theorem aggregate_recursive_without_descendants :
  ∀ (V : Type) (HV : Values V) (KNOWN_FUNCS : gmap string (@callable V))
    (df : IamDataFrame) (variable : string),
    (∀ r c, r ∈ _data df → get_str "variable" r.1 = Some c →
            is_component variable None c = false) →
    _aggregate_recursive KNOWN_FUNCS df variable =
      ([], Raise (ValueError "max() arg is an empty sequence")).
Proof.
  intros V HV KNOWN_FUNCS df variable Hno. unfold _aggregate_recursive. cbv zeta.
  by rewrite no_descendants.
Qed.

Lemma aggregate_recursive_without_descendants_witness :
  _aggregate_recursive KNOWN_FUNCS_Q df_tree "A|E" =
    ([], Raise (ValueError "max() arg is an empty sequence")).
Proof.
  apply (aggregate_recursive_without_descendants (option Q) Q_values KNOWN_FUNCS_Q
           df_tree "A|E").
  intros r c Hr Hc. unfold df_tree in Hr. simpl in Hr.
  repeat (apply elem_of_cons in Hr as [-> | Hr]; [by vm_compute in Hc; simplify_eq|]).
  by apply elem_of_nil in Hr.
Defined.

(** X6. Aggregating a list of variables gives, for each listed variable,
    the rows that aggregating it alone gives: on a well-formed dataset the
    value of the list result at every key labelled with a listed variable
    is the reduction of that variable's children at the key, which is the
    value of the single-variable result there. *)
Theorem aggregate_list_agrees_with_single :
  ∀ (V : Type) (HV : Values V) (KNOWN_FUNCS : gmap string (@callable V))
    (df : IamDataFrame) (vs : list string) (v : string)
    (method : method_arg) (f : callable),
    wf_frame df →
    _get_method_func KNOWN_FUNCS method = ([], Return f) →
    v ∈ vs →
    ∃ s, _aggregate KNOWN_FUNCS df (VList vs) None method =
           (msg_no_components <$> skipped df vs, Return (Some s)) ∧
         (∀ k, get_str "variable" k = Some v →
               lookup_row k s =
                 match children_at df v k with
                 | [] => None
                 | xs => Some (call f xs)
                 end) ∧
         (∀ s1, _aggregate KNOWN_FUNCS df (VStr v) None method = ([], Return (Some s1)) →
                ∀ k, get_str "variable" k = Some v → lookup_row k s = lookup_row k s1).
Proof.
  intros V HV KNOWN_FUNCS df vs v method f Hwf Hf Hv.
  destruct (aggregate_list_lookup KNOWN_FUNCS df vs v method f Hwf Hf Hv)
    as (s & Hs & Hlook).
  exists s. split; [done|]. split; [done|]. intros s1 Hs1 k Hk.
  rewrite (Hlook k Hk).
  destruct (_variable_components df v (Some 0)) as [|c cs] eqn:Ec.
  - exfalso. revert Hs1. unfold _aggregate, build_mapping. cbn [islistable andb py_or].
    rewrite Ec. rewrite bool_decide_eq_true_2 by done. by rewrite bind_info_ret.
  - destruct (aggregate_children KNOWN_FUNCS df v method f Hwf) as (s1' & Hs1' & Hl1);
      [by rewrite Ec|done|].
    rewrite Hs1' in Hs1. injection Hs1 as <-. by rewrite Hl1.
Qed.

Lemma aggregate_list_agrees_with_single_witness :
  ∃ s, _aggregate KNOWN_FUNCS_Q df_tree (VList ["A"; "A|B"; "A|E"]) None (MName "sum") =
         (msg_no_components <$> skipped df_tree ["A"; "A|B"; "A|E"], Return (Some s)) ∧
       (∀ k, get_str "variable" k = Some "A|B" →
             lookup_row k s =
               match children_at df_tree "A|B" k with
               | [] => None
               | xs => Some (qsum xs)
               end) ∧
       (∀ s1, _aggregate KNOWN_FUNCS_Q df_tree (VStr "A|B") None (MName "sum") =
                ([], Return (Some s1)) →
              ∀ k, get_str "variable" k = Some "A|B" → lookup_row k s = lookup_row k s1).
Proof.
  apply (aggregate_list_agrees_with_single (option Q) Q_values KNOWN_FUNCS_Q df_tree
           ["A"; "A|B"; "A|E"] "A|B" (MName "sum") np_sum).
  - split; [|repeat constructor].
    apply (bool_decide_unpack (NoDup IAMC_IDX)). by vm_compute.
  - by vm_compute.
  - apply (bool_decide_unpack ("A|B" ∈ ["A"; "A|B"; "A|E"])). by vm_compute.
Defined.

(** X7. Without a weight and without components the region aggregator
    reduces, over the subregions, the rows that differ in region only: on
    a well-formed dataset with subregions to aggregate over, the value at
    every key is the reduction by the resolved method of the values of the
    rows of the variables in the subregions whose key without the region
    level is that key; every row of the result has the levels of the
    dataset without region, and nothing is logged. *)
Theorem aggregate_region_reduces_subregions :
  ∀ (V : Type) (HV : Values V) (KNOWN_FUNCS : gmap string (@callable V))
    (df : IamDataFrame) (variable : variable_arg) (region : string)
    (subregions : option (list string)) (method : method_arg) (f : callable),
    wf_frame df →
    _get_method_func KNOWN_FUNCS method = ([], Return f) →
    py_or subregions (_all_other_regions df region variable) ≠ [] →
    ∃ s, _aggregate_region KNOWN_FUNCS df variable region subregions CFalse method None =
           ([], Return (Some s)) ∧
         (∀ k, lookup_row k s =
                 match region_values df
                         (py_or subregions (_all_other_regions df region variable))
                         (to_list variable) k with
                 | [] => None
                 | xs => Some (call f xs)
                 end) ∧
         (∀ r, r ∈ s → r.1.*1 = filter (λ n, n ∉ ["region"]) (_LONG_IDX df)).
Proof.
  intros V HV KNOWN_FUNCS df variable region subregions method f Hwf Hf Hsub.
  destruct (aggregate_region_unweighted KNOWN_FUNCS df variable region subregions
              method f Hwf Hf Hsub) as (s & Hs & ->).
  eexists. split; [exact Hs|]. split.
  - intros k.
    rewrite (groupby_drop_lookup (_LONG_IDX df)) by by apply wf_filter.
    unfold region_values. rewrite list_filter_filter.
    rewrite (filter_ext_in _ (λ r : Key * V,
      is_region_row (py_or subregions (_all_other_regions df region variable))
        (to_list variable) r.1 = true ∧ droplevel_key ["region"] r.1 = k)); [done|].
    intros r _. simpl. tauto.
  - intros r Hr. apply (groupby_drop_names (_LONG_IDX df)) in Hr; [done|].
    by apply wf_filter.
Qed.

Lemma aggregate_region_reduces_subregions_witness :
  ∃ s, _aggregate_region KNOWN_FUNCS_Q df_regions (VList ["Price"; "Population"]) "World"
         None CFalse (MName "mean") None = ([], Return (Some s)) ∧
       (∀ k, lookup_row k s =
               match region_values df_regions
                       (py_or None (_all_other_regions df_regions "World"
                                      (VList ["Price"; "Population"])))
                       ["Price"; "Population"] k with
               | [] => None
               | xs => Some (qmean xs)
               end) ∧
       (∀ r, r ∈ s → r.1.*1 = filter (λ n, n ∉ ["region"]) IAMC_IDX).
Proof.
  apply (aggregate_region_reduces_subregions (option Q) Q_values KNOWN_FUNCS_Q df_regions
           (VList ["Price"; "Population"]) "World" None (MName "mean") (py_func qmean)).
  - split; [|repeat constructor].
    apply (bool_decide_unpack (NoDup IAMC_IDX)). by vm_compute.
  - by vm_compute.
  - by vm_compute.
Defined.

(** X8. With an explicit, non-empty list of components, names without
    wildcard, and no weight the region aggregator adds, to the reduction
    over the subregions, the sum of the components at the region itself,
    a side without rows at a key counting as zero: the components are
    summed whatever the method is.
    The statement is for a dataset without missing values and reductions
    that give none on such values: the addition would fill a missing
    result as well. *)
Theorem aggregate_region_adds_components :
  ∀ (V : Type) (HV : Values V) (KNOWN_FUNCS : gmap string (@callable V))
    (df : IamDataFrame) (v region : string) (subregions : option (list string))
    (c : string) (cs : list string) (method : method_arg) (f : callable),
    wf_frame df →
    Forall (λ c, is_literal c = true) (c :: cs) →
    _get_method_func KNOWN_FUNCS method = ([], Return f) →
    (∀ r, r ∈ _data df → r.2 ≠ nan) →
    (∀ xs, xs ≠ [] → Forall (λ x, x ≠ nan) xs → call f xs ≠ nan ∧ vsum xs ≠ nan) →
    py_or subregions (_all_other_regions df region (VStr v)) ≠ [] →
    ∃ s, _aggregate_region KNOWN_FUNCS df (VStr v) region subregions (CList (c :: cs))
           method None = ([], Return (Some s)) ∧
         ∀ k, lookup_row k s =
                match region_values df
                        (py_or subregions (_all_other_regions df region (VStr v))) [v] k,
                      region_component_values df region (c :: cs) v k with
                | [], [] => None
                | xs, ys => Some (vadd (reduce_or_zero (call f) xs) (reduce_or_zero vsum ys))
                end.
Proof.
  intros V HV KNOWN_FUNCS df v region subregions c cs method f Hwf _ Hf _ _ Hsub.
  by apply aggregate_region_components.
Qed.

Lemma aggregate_region_adds_components_witness :
  ∃ s, _aggregate_region KNOWN_FUNCS_Q df_bunkers (VStr "Emissions") "World" None
         (CList ["Emissions|Bunkers"]) (MName "mean") None = ([], Return (Some s)) ∧
       ∀ k, lookup_row k s =
              match region_values df_bunkers
                      (py_or None (_all_other_regions df_bunkers "World" (VStr "Emissions")))
                      ["Emissions"] k,
                    region_component_values df_bunkers "World" ["Emissions|Bunkers"]
                      "Emissions" k with
              | [], [] => None
              | xs, ys => Some (vadd (reduce_or_zero qmean xs) (reduce_or_zero vsum ys))
              end.
Proof.
  apply (aggregate_region_adds_components (option Q) Q_values KNOWN_FUNCS_Q df_bunkers
           "Emissions" "World" None "Emissions|Bunkers" [] (MName "mean") (py_func qmean)).
  - split; [|repeat constructor].
    apply (bool_decide_unpack (NoDup IAMC_IDX)). by vm_compute.
  - by repeat constructor.
  - by vm_compute.
  - intros r Hr. simpl in Hr.
    repeat (apply elem_of_cons in Hr as [->|Hr]; [done|]). by apply elem_of_nil in Hr.
  - intros [|[q|] xs] Hne Hall; [done| |].
    + split; simpl; unfold qmean, qsum; simpl; discriminate.
    + by apply Forall_cons in Hall as [Hx _].
  - by vm_compute.
Defined.

(** X9. With [components=True] the region aggregator detects the
    components itself: the variables below the variable, at any depth,
    that have a row in the region and no row in any subregion.  It then
    does what it does when they are listed explicitly, and what it does
    with [components=False] when there is none. *)
Theorem aggregate_region_detects_components :
  ∀ (V : Type) (HV : Values V) (KNOWN_FUNCS : gmap string (@callable V))
    (df : IamDataFrame) (v region : string) (subregions : option (list string))
    (method : method_arg),
    (∀ c, c ∈ detected_components df v region
                (py_or subregions (_all_other_regions df region (VStr v))) ↔
          is_component v None c = true ∧
          (∃ r, r ∈ _data df ∧ is_region_row [region] [c] r.1 = true) ∧
          ¬ (∃ r, r ∈ _data df ∧
                  is_region_row (py_or subregions (_all_other_regions df region (VStr v)))
                    [c] r.1 = true)) ∧
    _aggregate_region KNOWN_FUNCS df (VStr v) region subregions CTrue method None =
    _aggregate_region KNOWN_FUNCS df (VStr v) region subregions
      (match detected_components df v region
               (py_or subregions (_all_other_regions df region (VStr v))) with
       | [] => CFalse
       | c :: cs => CList (c :: cs)
       end) method None.
Proof.
  intros V HV KNOWN_FUNCS df v region subregions method. split.
  - intros c. apply elem_of_detected_components.
  - apply aggregate_region_detected.
Qed.

(** X10. Subregions given explicitly are taken as they are: when no row
    of the variable lies in any of them, the region aggregator without
    weight and components returns the empty series, not nothing, and logs
    no message. *)
Theorem aggregate_region_subregions_without_data :
  ∀ (V : Type) (HV : Values V) (KNOWN_FUNCS : gmap string (@callable V))
    (df : IamDataFrame) (variable : variable_arg) (region : string)
    (l : list string) (method : method_arg) (f : callable),
    l ≠ [] →
    _get_method_func KNOWN_FUNCS method = ([], Return f) →
    (∀ r, r ∈ _data df → is_region_row l (to_list variable) r.1 = false) →
    _aggregate_region KNOWN_FUNCS df variable region (Some l) CFalse method None =
      ([], Return (Some [])).
Proof.
  intros V HV KNOWN_FUNCS df variable region l method f Hl Hf Hnone.
  by apply (aggregate_region_no_data KNOWN_FUNCS df variable region l method f).
Qed.

Lemma aggregate_region_subregions_without_data_witness :
  _aggregate_region KNOWN_FUNCS_Q df_regions (VStr "Emissions") "World"
    (Some ["reg_a"; "reg_b"]) CFalse (MName "sum") None = ([], Return (Some [])).
Proof.
  apply (aggregate_region_subregions_without_data (option Q) Q_values KNOWN_FUNCS_Q
           df_regions (VStr "Emissions") "World" ["reg_a"; "reg_b"] (MName "sum") np_sum).
  - done.
  - by vm_compute.
  - intros r Hr. simpl in Hr.
    repeat (apply elem_of_cons in Hr as [->|Hr]; [by vm_compute|]).
    by apply elem_of_nil in Hr.
Defined.

(** X11. Once there are subregions to aggregate over, the method is
    checked before any data is reduced: without a weight a name that is
    not known raises the unknown-method error; with a weight every method
    other than sum, an unknown name included, raises the error that only
    sum is allowed.  Nothing is logged in either case. *)
Theorem aggregate_region_method_errors :
  ∀ (V : Type) (HV : Values V) (KNOWN_FUNCS : gmap string (@callable V))
    (df : IamDataFrame) (variable : variable_arg) (region : string)
    (subregions : option (list string)),
    py_or subregions (_all_other_regions df region variable) ≠ [] →
    (∀ name,
       KNOWN_FUNCS !! name = None →
       _aggregate_region KNOWN_FUNCS df variable region subregions CFalse (MName name) None =
         ([], Raise (ValueError (msg_unknown_method name)))) ∧
    (∀ method w,
       is_sum method = false →
       _aggregate_region KNOWN_FUNCS df variable region subregions CFalse method (Some w) =
         ([], Raise (ValueError msg_only_sum))).
Proof.
  intros V HV KNOWN_FUNCS df variable region subregions Hsub. split.
  - intros name Hname. by apply aggregate_region_unknown.
  - intros method w Hsum. by apply aggregate_region_only_sum.
Qed.

Lemma aggregate_region_method_errors_witness :
  (∀ name,
     KNOWN_FUNCS_Q !! name = None →
     _aggregate_region KNOWN_FUNCS_Q df_regions (VStr "Price") "World" None CFalse
       (MName name) None = ([], Raise (ValueError (msg_unknown_method name)))) ∧
  (∀ method w,
     is_sum method = false →
     _aggregate_region KNOWN_FUNCS_Q df_regions (VStr "Price") "World" None CFalse
       method (Some w) = ([], Raise (ValueError msg_only_sum))).
Proof.
  apply (aggregate_region_method_errors (option Q) Q_values KNOWN_FUNCS_Q df_regions
           (VStr "Price") "World" None).
  by vm_compute.
Defined.

(** X12. With [components] omitted the time aggregator takes the labels
    of the column [subannual] other than [value], whatever [column] is:
    on a dataset with that column it does what it does when they are
    given explicitly, on a dataset without it the lookup of the column
    fails before anything is computed. *)
Theorem aggregate_time_default_components :
  ∀ (V : Type) (HV : Values V) (KNOWN_FUNCS : gmap string (@callable V))
    (df : IamDataFrame) (variable : variable_arg) (column : string) (value : label)
    (method : method_arg),
    ("subannual" ∈ _LONG_IDX df →
     _aggregate_time KNOWN_FUNCS df variable column value None method =
     _aggregate_time KNOWN_FUNCS df variable column value
       (Some (column_components df "subannual" value)) method) ∧
    ("subannual" ∉ _LONG_IDX df →
     _aggregate_time KNOWN_FUNCS df variable column value None method =
       ([], Raise (AttributeError "'DataFrame' object has no attribute 'subannual'"))).
Proof.
  intros V HV KNOWN_FUNCS df variable column value method.
  unfold _aggregate_time, default_time_components. split; intros Hsub.
  - by rewrite (bool_decide_eq_true_2 ("subannual" ∈ _LONG_IDX df)).
  - by rewrite (bool_decide_eq_false_2 ("subannual" ∈ _LONG_IDX df)).
Qed.

Lemma aggregate_time_default_components_witness :
  _aggregate_time KNOWN_FUNCS_Q df_seasons (VStr "A") "season" (LStr "year") None
    (MName "sum") =
  _aggregate_time KNOWN_FUNCS_Q df_seasons (VStr "A") "season" (LStr "year")
    (Some (column_components df_seasons "subannual" (LStr "year"))) (MName "sum") ∧
  _aggregate_time KNOWN_FUNCS_Q df_children (VStr "A") "year" (LInt 2005) None
    (MName "sum") =
    ([], Raise (AttributeError "'DataFrame' object has no attribute 'subannual'")).
Proof.
  split.
  - apply (aggregate_time_default_components (option Q) Q_values KNOWN_FUNCS_Q df_seasons
             (VStr "A") "season" (LStr "year") (MName "sum")).
    apply (bool_decide_unpack ("subannual" ∈ _LONG_IDX df_seasons)). by vm_compute.
  - apply (aggregate_time_default_components (option Q) Q_values KNOWN_FUNCS_Q df_children
             (VStr "A") "year" (LInt 2005) (MName "sum")).
    apply (bool_decide_unpack ("subannual" ∉ _LONG_IDX df_children)). by vm_compute.
Defined.

(** X13. With the components given, on a well-formed dataset of which
    some row is selected, the time aggregator returns one
    row for each group of selected rows that agree outside [column]: its
    key is the key of those rows with the label of [column] replaced by
    [value], the levels in the order of the dataset, and its value is the
    reduction by the resolved method of the cells of the group, one cell
    for each label of [column] among the selected rows, in sorted order:
    the mean of the group's values at that label, the missing value where
    it has none.  No key occurs twice. *)
Theorem aggregate_time_reduces_column :
  ∀ (V : Type) (HV : Values V) (KNOWN_FUNCS : gmap string (@callable V))
    (df : IamDataFrame) (variable : variable_arg) (column : string) (value : label)
    (components : list label) (method : method_arg) (f : callable),
    wf_frame df →
    "value" ∉ _LONG_IDX df →
    _get_method_func KNOWN_FUNCS method = ([], Return f) →
    (∃ p, p ∈ _data df ∧ is_time_row (to_list variable) column components p.1 = true) →
    ∃ s, _aggregate_time KNOWN_FUNCS df variable column value (Some components) method =
           ([], Return s) ∧
         NoDup s.*1 ∧
         (∀ r, r ∈ s →
            ∃ p, p ∈ _data df ∧
                 is_time_row (to_list variable) column components p.1 = true ∧
                 r.1 = alter_level (λ _, value) column p.1) ∧
         (∀ p, p ∈ _data df →
            is_time_row (to_list variable) column components p.1 = true →
            lookup_row (alter_level (λ _, value) column p.1) s =
              Some (call f (time_cells df (to_list variable) column components p.1))).
Proof.
  intros V HV KNOWN_FUNCS df variable column value components method f
    Hwf Hval Hf (p0 & Hp0 & Hrow0).
  destruct (aggregate_time_value KNOWN_FUNCS df column value Hwf Hval
              variable components method f Hf) as (s & Hs & Hnd & Hkeys & Hlook).
  { exists p0. by apply list_elem_of_filter. }
  exists s. split; [done|]. split; [done|]. split.
  - intros r Hr. destruct (Hkeys r Hr) as (p & [Hrow Hp]%list_elem_of_filter & Hk).
    by exists p.
  - intros p Hp Hrow. apply Hlook. by apply list_elem_of_filter.
Qed.

Lemma aggregate_time_reduces_column_witness :
  ∃ s, _aggregate_time KNOWN_FUNCS_Q df_seasons (VStr "A") "season" (LStr "year")
         (Some [LStr "winter"; LStr "summer"]) (MName "sum") = ([], Return s) ∧
       NoDup s.*1 ∧
       (∀ r, r ∈ s →
          ∃ p, p ∈ _data df_seasons ∧
               is_time_row ["A"] "season" [LStr "winter"; LStr "summer"] p.1 = true ∧
               r.1 = alter_level (λ _, LStr "year") "season" p.1) ∧
       (∀ p, p ∈ _data df_seasons →
          is_time_row ["A"] "season" [LStr "winter"; LStr "summer"] p.1 = true →
          lookup_row (alter_level (λ _, LStr "year") "season" p.1) s =
            Some (qsum (time_cells df_seasons ["A"] "season"
                          [LStr "winter"; LStr "summer"] p.1))).
Proof.
  apply (aggregate_time_reduces_column (option Q) Q_values KNOWN_FUNCS_Q df_seasons
           (VStr "A") "season" (LStr "year") [LStr "winter"; LStr "summer"]
           (MName "sum") np_sum).
  - split; [|repeat constructor].
    apply (bool_decide_unpack (NoDup (_LONG_IDX df_seasons))). by vm_compute.
  - apply (bool_decide_unpack ("value" ∉ _LONG_IDX df_seasons)). by vm_compute.
  - by vm_compute.
  - exists (season_row "winter" "winter" 1). split; [by left|by vm_compute].
Defined.

(** X14. Grouping partitions the rows.  For a series without missing
    labels and a resolved method, the keys of the result are exactly the
    keys of the rows over the levels that are kept, each once and in
    sorted order; the value at a key is the reduction of the values of the
    rows with that key; and the groups together hold every value of the
    series exactly once.  An empty series gives an empty result. *)
Theorem group_and_agg_partitions :
  ∀ (V : Type) (HV : Values V) (KNOWN_FUNCS : gmap string (@callable V))
    (s : Series V) (by_ : list string) (method : method_arg) (f : callable),
    _get_method_func KNOWN_FUNCS method = ([], Return f) →
    (∀ r, r ∈ s → LNaN ∉ r.1.*2) →
    ∃ g, _group_and_agg KNOWN_FUNCS s by_ method = ([], Return g) ∧
         NoDup g.*1 ∧
         sorted_by key_leb g.*1 = true ∧
         (∀ k, k ∈ g.*1 ↔
               ∃ p, p ∈ s ∧ project (filter (λ c, c ∉ by_) (index_names s)) p.1 = k) ∧
         (∀ r, r ∈ g →
            r.2 = call f (group (filter (λ c, c ∉ by_) (index_names s)) r.1 s)) ∧
         concat ((λ k, group (filter (λ c, c ∉ by_) (index_names s)) k s) <$> g.*1)
           ≡ₚ s.*2 ∧
         (s = [] → g = []).
Proof.
  intros V HV KNOWN_FUNCS s by_ method f Hf _.
  destruct (group_and_agg_groups KNOWN_FUNCS s by_ method f Hf)
    as (g & Hg & Hnd & Hsorted & Hkeys & Hvalues & Hperm).
  exists g. repeat (split; [done|]). intros ->.
  destruct g as [|r g]; [done|].
  destruct (proj1 (Hkeys r.1) ltac:(by left)) as (p & Hp & _).
  by apply elem_of_nil in Hp.
Qed.

Lemma group_and_agg_partitions_witness :
  ∃ g, _group_and_agg KNOWN_FUNCS_Q (_data df_regions) ["region"] (MName "max") =
         ([], Return g) ∧
       NoDup g.*1 ∧
       sorted_by key_leb g.*1 = true ∧
       (∀ k, k ∈ g.*1 ↔
             ∃ p, p ∈ _data df_regions ∧
                  project (filter (λ c, c ∉ ["region"]) (index_names (_data df_regions)))
                    p.1 = k) ∧
       (∀ r, r ∈ g →
          r.2 = qbest (λ b a, negb (Qle_bool b a))
                  (group (filter (λ c, c ∉ ["region"]) (index_names (_data df_regions)))
                     r.1 (_data df_regions))) ∧
       concat ((λ k, group (filter (λ c, c ∉ ["region"]) (index_names (_data df_regions)))
                       k (_data df_regions)) <$> g.*1)
         ≡ₚ (_data df_regions).*2 ∧
       (_data df_regions = [] → g = []).
Proof.
  apply (group_and_agg_partitions (option Q) Q_values KNOWN_FUNCS_Q (_data df_regions)
           ["region"] (MName "max") (py_func (qbest (λ b a, negb (Qle_bool b a))))).
  - by vm_compute.
  - intros r Hr. simpl in Hr.
    repeat (apply elem_of_cons in Hr as [->|Hr];
            [apply (bool_decide_unpack (LNaN ∉ _)); by vm_compute|]).
    by apply elem_of_nil in Hr.
Defined.

(** X15. With a weight the region aggregator is the weighted average over
    the rows of the subregions.  On a well-formed dataset with subregions
    to aggregate over and the method sum: when the rows of the weight in
    the subregions have, without variable and unit, the index of the rows
    of the variable, the value at the key of every such row of the
    variable is the sum over the subregions of value times weight divided
    by the sum of the weights, and no row of the result has a region
    level; when the two indexes differ the call raises the
    inconsistent-index error. *)
Theorem aggregate_region_weighted :
  ∀ (V : Type) (HV : Values V) (KNOWN_FUNCS : gmap string (@callable V))
    (df : IamDataFrame) (variable : variable_arg) (region : string)
    (subregions : option (list string)) (method : method_arg) (w : string)
    (data weight : Series V),
    wf_frame df →
    is_sum method = true →
    py_or subregions (_all_other_regions df region variable) ≠ [] →
    data = filter (λ r : Key * V,
             is_region_row (py_or subregions (_all_other_regions df region variable))
               (to_list variable) r.1 = true) (_data df) →
    weight = filter (λ r : Key * V,
               is_region_row (py_or subregions (_all_other_regions df region variable))
                 [w] r.1 = true) (_data df) →
    (index_labels (droplevel ["variable"; "unit"] data) =
       index_labels (droplevel ["variable"; "unit"] weight) →
     ∃ s, _aggregate_region KNOWN_FUNCS df variable region subregions CFalse method (Some w) =
            ([], Return (Some s)) ∧
          (∀ ra, ra ∈ data →
             lookup_row (weighted_key ra.1) s =
               Some (vdiv (vsum (weighted_terms data weight ra.1))
                          (vsum (weights_at weight ra.1)))) ∧
          (∀ r, r ∈ s → "region" ∉ r.1.*1)) ∧
    (index_labels (droplevel ["variable"; "unit"] data) ≠
       index_labels (droplevel ["variable"; "unit"] weight) →
     _aggregate_region KNOWN_FUNCS df variable region subregions CFalse method (Some w) =
       ([], Raise (ValueError msg_inconsistent_index))).
Proof.
  intros V HV KNOWN_FUNCS df variable region subregions method w data weight
    Hwf Hsum Hsub Hdata Hweight.
  rewrite (region_weighted_unfold KNOWN_FUNCS df variable region subregions
             method w Hsub).
  rewrite <- Hdata, <- Hweight. split; intros Hidx.
  - assert (Hwd : wf_series (_LONG_IDX df) data) by (rewrite Hdata; by apply wf_filter).
    assert (Hww : wf_series (_LONG_IDX df) weight) by (rewrite Hweight; by apply wf_filter).
    destruct (agg_weight_value (_LONG_IDX df) (proj1 Hwf) data weight Hwd Hww Hidx
                method Hsum) as (s & Hs & Hlook & Hnone).
    exists s. rewrite Hs. split; [done|]. split; [done|].
    intros r Hr.
    destruct (decide (r.1 ∈ (λ p : Key * V, weighted_key p.1) <$> data)) as [Hin|Hnin].
    + apply list_elem_of_fmap in Hin as (ra & -> & _). apply weighted_key_no_region.
    + apply Hnone, lookup_row_None in Hnin. destruct Hnin.
      apply list_elem_of_fmap. by exists r.
  - unfold _agg_weight. rewrite Hsum. cbn [negb]. unfold index_equals.
    by rewrite bool_decide_eq_false_2.
Qed.

Lemma aggregate_region_weighted_witness :
  let data := [iamc_row "reg_a" "Price" 1; iamc_row "reg_b" "Price" 2] in
  let weight := [iamc_row "reg_a" "Population" 10; iamc_row "reg_b" "Population" 30] in
  ∃ s, _aggregate_region KNOWN_FUNCS_Q df_regions (VStr "Price") "World" None CFalse
         (MName "sum") (Some "Population") = ([], Return (Some s)) ∧
       (∀ ra, ra ∈ data →
          lookup_row (weighted_key ra.1) s =
            Some (vdiv (vsum (weighted_terms data weight ra.1))
                       (vsum (weights_at weight ra.1)))) ∧
       (∀ r, r ∈ s → "region" ∉ r.1.*1).
Proof.
  intros data weight.
  apply (aggregate_region_weighted (option Q) Q_values KNOWN_FUNCS_Q df_regions
           (VStr "Price") "World" None (MName "sum") "Population" data weight).
  - split; [|repeat constructor].
    apply (bool_decide_unpack (NoDup IAMC_IDX)). by vm_compute.
  - done.
  - by vm_compute.
  - by vm_compute.
  - by vm_compute.
  - by vm_compute.
Defined.
